(** * Typing MVP: the keystroke engine, its metrics and the leaderboard

    A shallow embedding of
    - [client/src/TypingFastCached.jsx] (module [Cached]): the
      cached-geometry typing engine, [writeChar], [finishIfNeeded],
      [fullReset], [handleKeyDown], [calcWPM], [calcAccuracy];
    - [client/TypingMonaco.jsx] (module [Monaco]): the editor-backed
      variant, whose state is the array of typed characters;
    - [server/index.js] (modules [Server] and [Api]): the leaderboard
      query, the problems and the posting of attempts;
    - [client/src/TypingFast.jsx] (module [Fast]), whose handlers are those
      of TypingFastCached and whose render differs;
    - [client/src/TypingCanvas.jsx] (module [Canvas]) and
      [client/src/TypingTest.jsx] (module [TypingTest]);
    - the positions, ranges and decorations of TypingMonaco (module
      [Editor]) and the live metrics of TypingFastCached (module
      [CachedView]);
    - the commits React makes between the handlers of TypingFastCached
      (module [Session]): the ref callbacks of the prompt spans, the
      layout effect at the mount and the summary that replaces the prompt.

    JavaScript numbers are IEEE-754 doubles; module [JsNum] writes the
    rounding of every division and product out, so that [calcWPM] and
    [calcAccuracy] compute what the browser computes.  Strings are
    sequences of 8-bit characters, one per UTF-16 code unit. *)

From Stdlib Require Import QArith Qround Qabs Qpower Lqa ZArith Ascii String.
From stdpp Require Import base list strings sorting.

(** ** JavaScript numbers *)

Module JsNum.

(** A double is a rational, an infinity or NaN.  The sign of zero is not
    tracked: every division in the embedded code is guarded against a
    zero divisor. *)
Inductive t := Fin (q : Q) | PosInf | NegInf | NaN.

Definition of_Z (z : Z) : t := Fin (inject_Z z).
Definition of_nat (n : nat) : t := of_Z (Z.of_nat n).

(** Nearest integer, ties to the even one. *)
Definition round_half_even (x : Q) : Z :=
  let f := Qfloor x in
  match (x - inject_Z f ?= 1 # 2)%Q with
  | Lt => f
  | Gt => (f + 1)%Z
  | Eq => if Z.even f then f else (f + 1)%Z
  end.

(** [ilog2 a] is the binary exponent of a positive rational:
    [2 ^ ilog2 a <= a < 2 ^ (ilog2 a + 1)]. *)
Definition ilog2 (a : Q) : Z :=
  let e0 := (Z.log2 (Qnum a) - Z.log2 (Zpos (Qden a)))%Z in
  if Qle_bool (2 ^ e0)%Q a then e0 else (e0 - 1)%Z.

(** Binary64 rounding to nearest, ties to even: 53 significant bits,
    least exponent -1074 (subnormals), overflow to an infinity from
    [2 ^ 1024].  The fraction is reduced first, so that equal rationals
    round to the same value. *)
Definition rnd (q : Q) : t :=
  match (q ?= 0)%Q with
  | Eq => Fin 0
  | c =>
      let a := Qabs (Qred q) in
      let u := Z.max (ilog2 a - 52) (-1074) in
      let m := round_half_even (a / 2 ^ u)%Q in
      let r := (inject_Z m * 2 ^ u)%Q in
      if Qle_bool (2 ^ 1024)%Q r
      then match c with Lt => NegInf | _ => PosInf end
      else Fin (Qred (match c with Lt => - r | _ => r end)%Q)
  end.

(** [x / y] *)
Definition div (x y : t) : t :=
  match x, y with
  | NaN, _ | _, NaN => NaN
  | Fin a, Fin b =>
      match (b ?= 0)%Q with
      | Eq => match (a ?= 0)%Q with Eq => NaN | Lt => NegInf | Gt => PosInf end
      | _ => rnd (a / b)
      end
  | Fin _, (PosInf | NegInf) => Fin 0
  | (PosInf | NegInf), (PosInf | NegInf) => NaN
  | PosInf, Fin b => if Qle_bool 0 b then PosInf else NegInf
  | NegInf, Fin b => if Qle_bool 0 b then NegInf else PosInf
  end.

(** [x * y] *)
Definition mul (x y : t) : t :=
  match x, y with
  | NaN, _ | _, NaN => NaN
  | Fin a, Fin b => rnd (a * b)
  | Fin a, PosInf | PosInf, Fin a =>
      match (a ?= 0)%Q with Eq => NaN | Lt => NegInf | Gt => PosInf end
  | Fin a, NegInf | NegInf, Fin a =>
      match (a ?= 0)%Q with Eq => NaN | Lt => PosInf | Gt => NegInf end
  | PosInf, PosInf | NegInf, NegInf => PosInf
  | PosInf, NegInf | NegInf, PosInf => NegInf
  end.

(** [x > 0] *)
Definition gt0 (x : t) : bool :=
  match x with
  | Fin a => negb (Qle_bool a 0)
  | PosInf => true
  | NegInf | NaN => false
  end.

(** [Math.round(x)]: the nearest integer, halves up. *)
Definition Math_round (x : t) : t :=
  match x with
  | Fin a => of_Z (Qfloor (a + (1 # 2)))
  | _ => x
  end.

End JsNum.

(** ** Metrics shared by every variant *)

(** [calcWPM(charsCount, ms)] *)
Definition calcWPM (charsCount ms : JsNum.t) : JsNum.t :=
  let words := JsNum.div charsCount (JsNum.of_Z 5) in
  let minutes := JsNum.div ms (JsNum.of_Z 60000) in
  if JsNum.gt0 minutes then JsNum.Math_round (JsNum.div words minutes)
  else JsNum.of_Z 0.


(** ** Data shared by the client variants *)

(** The newline character, ["\n"]. *)
Definition NL : string := String (ascii_of_nat 10) EmptyString.
(** The space that Tab writes. *)
Definition SP : string := " ".

Definition lower_ascii (c : ascii) : ascii :=
  let n := N_of_ascii c in
  if (65 <=? n)%N && (n <=? 90)%N then ascii_of_N (n + 32) else c.

(** [s.toLowerCase()], on ASCII letters. *)
Fixpoint toLowerCase (s : string) : string :=
  match s with
  | EmptyString => EmptyString
  | String c r => String (lower_ascii c) (toLowerCase r)
  end.

(** A keydown event, as far as the handlers look at it. *)
Record KeyEvent := { key : string; ctrlKey : bool; metaKey : bool }.

(** One input to a handler: the event and the two readings of [Date.now()]
    the handler may take, the first when it starts the timer, the second
    when it finishes the session. *)
Record Input := { ev : KeyEvent; now_start : Z; now_finish : Z }.

(** The props and the ambient store: [problem.id], [[...text]],
    [localStorage.getItem("nick")], [autoSubmit], and whether a completion
    callback was passed. *)
Record Props := {
  problem_id : string;
  chars : list string;
  nick : option string;
  autoSubmit : bool;
  has_callback : bool
}.

Record Attempt := {
  user : string;
  problemId : string;
  wpm : JsNum.t;
  accuracy : JsNum.t;
  rawText : string;
  durationMs : Z
}.

(** [(e.ctrlKey || e.metaKey) && e.key.toLowerCase() === "v"] *)
Definition is_paste (e : KeyEvent) : bool :=
  (ctrlKey e || metaKey e) && String.eqb (toLowerCase (key e)) "v".

(** [e.key.length === 1 && !e.ctrlKey && !e.metaKey] *)
Definition is_printable (e : KeyEvent) : bool :=
  (String.length (key e) =? 1)%nat && negb (ctrlKey e) && negb (metaKey e).

(** [!startTs]: null and 0 are falsy. *)
Definition ts_unset (ts : option Z) : bool :=
  match ts with None => true | Some t => (t =? 0)%Z end.

(** [localStorage.getItem("nick") || "anon"] *)
Definition current_user (P : Props) : string :=
  match nick P with
  | Some n => if String.eqb n "" then "anon" else n
  | None => "anon"
  end.

(** The branch of [handleKeyDown] a key event takes. *)
Inductive KeyKind :=
  KPaste | KBackspace | KEnter | KTab | KPrintable | KEscape | KOther.

Definition classify (e : KeyEvent) : KeyKind :=
  if is_paste e then KPaste
  else if String.eqb (key e) "Backspace" then KBackspace
  else if String.eqb (key e) "Enter" then KEnter
  else if String.eqb (key e) "Tab" then KTab
  else if is_printable e then KPrintable
  else if String.eqb (key e) "Escape" then KEscape
  else KOther.

(** The keys that go through [writeChar]: a printable character, Enter
    and Tab. *)
Definition typing_key (e : KeyEvent) : Prop :=
  is_printable e = true ∨ key e = "Enter" ∨ key e = "Tab".

(** ** TypingFastCached: the cached-geometry engine *)

Module Cached.

(** What the engine keeps on one prompt span: [dataset.typedChar] and the
    two classes it toggles in [classList]. *)
Record Span := {
  typedChar : option string;
  cls_correct : bool;
  cls_incorrect : bool
}.

Definition blank : Span :=
  {| typedChar := None; cls_correct := false; cls_incorrect := false |}.

(** The verdict the spec reads off a span. *)
Inductive Status := untyped | correct | incorrect.

Definition status (s : option Span) : Status :=
  match s with
  | Some sp =>
      if cls_correct sp then correct
      else if cls_incorrect sp then incorrect else untyped
  | None => untyped
  end.

Definition is_typed (s : option Span) : bool :=
  match status s with untyped => false | _ => true end.

(** [setReport({ wpm, accuracy, durationMs, rawText })] *)
Record Report := {
  rep_wpm : JsNum.t;
  rep_accuracy : JsNum.t;
  rep_durationMs : Z;
  rep_rawText : string
}.

(** The component's state and refs, and what it has sent out.
    [spans] is [spansRef.current]: [None] is an index no ref callback
    fills.  [posted] lists the bodies of the [fetch] calls to
    [/api/attempts] and [notified] the arguments of [onFinish], latest
    first. *)
Record State := {
  pos : nat;
  spans : list (option Span);
  startTs : option Z;
  finished : bool;
  report : option Report;
  posted : list Attempt;
  notified : list Attempt
}.

Definition set_pos (n : nat) (st : State) : State :=
  {| pos := n; spans := spans st; startTs := startTs st;
     finished := finished st; report := report st;
     posted := posted st; notified := notified st |}.

Definition set_spans (l : list (option Span)) (st : State) : State :=
  {| pos := pos st; spans := l; startTs := startTs st;
     finished := finished st; report := report st;
     posted := posted st; notified := notified st |}.

Definition set_startTs (ts : option Z) (st : State) : State :=
  {| pos := pos st; spans := spans st; startTs := ts;
     finished := finished st; report := report st;
     posted := posted st; notified := notified st |}.

(** [spansRef.current.reduce((acc, s) => acc + (s && s.classList.contains("correct") ? 1 : 0), 0)] *)
Definition has_correct (s : option Span) : bool :=
  match s with Some sp => cls_correct sp | None => false end.

Definition count_correct (l : list (option Span)) : nat :=
  length (List.filter has_correct l).

(** [calcAccuracy(typedLen)] *)
Definition calcAccuracy (l : list (option Span)) (typedLen : nat) : JsNum.t :=
  if (typedLen =? 0)%nat then JsNum.of_Z 100
  else JsNum.Math_round
         (JsNum.mul (JsNum.div (JsNum.of_nat (count_correct l)) (JsNum.of_nat typedLen))
                    (JsNum.of_Z 100)).

(** [s && s.dataset.typedChar ? s.dataset.typedChar : ""] *)
Definition typed_text (s : option Span) : string :=
  match s with
  | Some sp => match typedChar sp with Some c => c | None => "" end
  | None => ""
  end.

(** [spansRef.current.map(...).join("")] *)
Definition typedStr (l : list (option Span)) : string :=
  String.concat "" (map typed_text l).

Section Engine.
Variable P : Props.

(** The spans a render attaches: every prompt character gets a ref'd
    span except a newline, whose span has no ref callback.  (The layout
    effect empties [spansRef.current] once after the first commit and after
    a prompt change; the ref callbacks fill it again at the next render.)
    A newline is a [None] entry here also at the end of the prompt, where
    [spansRef.current] ends before it; [Session.attach] is the array as a
    commit leaves it, and reads the same at every index. *)
Definition render_spans : list (option Span) :=
  (λ c, if String.eqb c NL then None else Some blank) <$> chars P.

(** The state of a fresh session with its spans attached and clean, which
    is also what [fullReset] leaves of the component's own state.  The
    component reaches it by a click on Try Again, or on Reset once a key
    has moved the position; right after its mount it is in
    [Session.mount], where no span is stored until the next render. *)
Definition init : State :=
  {| pos := 0; spans := render_spans; startTs := None; finished := false;
     report := None; posted := []; notified := [] |}.

(** [fullReset()] *)
Definition fullReset (st : State) : State :=
  {| pos := 0;
     spans := (λ s, match s with Some _ => Some blank | None => None end) <$> spans st;
     startTs := None; finished := false; report := None;
     posted := posted st; notified := notified st |}.

(** [finishIfNeeded()], called from a handler whose render saw position
    [p]; [now] is what [Date.now()] returns.  Typed characters are ASCII,
    for which [String.length] is JavaScript's [length]. *)
Definition finishIfNeeded (p : nat) (now : Z) (st : State) : State :=
  if finished st then st
  else if (length (chars P) <=? p)%nat then
    let endTs := now in
    let durationMs :=
      match startTs st with
      | Some t => if (t =? 0)%Z then 0%Z else (endTs - t)%Z
      | None => 0%Z
      end in
    let typed := typedStr (spans st) in
    let wpm := calcWPM (JsNum.of_nat (String.length typed)) (JsNum.of_Z durationMs) in
    let accuracy := calcAccuracy (spans st) (String.length typed) in
    let attempt :=
      {| user := current_user P; problemId := problem_id P; wpm := wpm;
         accuracy := accuracy; rawText := typed; durationMs := durationMs |} in
    {| pos := pos st; spans := spans st; startTs := startTs st;
       finished := true;
       report := Some {| rep_wpm := wpm; rep_accuracy := accuracy;
                         rep_durationMs := durationMs; rep_rawText := typed |};
       posted := if autoSubmit P then attempt :: posted st else posted st;
       notified := if has_callback P then attempt :: notified st else notified st |}
  else st.

(** [writeChar(ch)].  [p] is the [pos] of the render the handler closes
    over: it does not change while the handler runs.  The [pos] field of
    the state is the value the queued [setPos] calls produce, so
    [setPos(idx + 1)] overwrites it and [setPos((p) => p + 1)]
    increments it. *)
Definition writeChar (p : nat) (now : Z) (ch : string) (st : State) : State :=
  if finished st then st
  else
    let idx := p in
    match spans st !! idx with
    | Some (Some _) =>
        let expected := chars P !! idx in
        let ok := match expected with Some e => String.eqb ch e | None => false end in
        let span' := {| typedChar := Some ch; cls_correct := ok; cls_incorrect := negb ok |} in
        finishIfNeeded p now
          (set_pos (idx + 1) (set_spans (<[idx := Some span']> (spans st)) st))
    | _ =>
        (* beyond end *)
        finishIfNeeded p now (set_pos (pos st + 1) st)
    end.

(** [handleKeyDown(e)] *)
Definition handleKeyDown (st : State) (i : Input) : State :=
  let e := ev i in
  if is_paste e then st
  else
    let p := pos st in
    let st := if ts_unset (startTs st) then set_startTs (Some (now_start i)) st else st in
    if String.eqb (key e) "Backspace" then
      if (p =? 0)%nat then st
      else
        let prev := p - 1 in
        let st :=
          match spans st !! prev with
          | Some (Some _) => set_spans (<[prev := Some blank]> (spans st)) st
          | _ => st
          end in
        set_pos prev st
    else if String.eqb (key e) "Enter" then
      writeChar p (now_finish i) NL st
    else if String.eqb (key e) "Tab" then
      writeChar p (now_finish i) SP
        (writeChar p (now_finish i) SP
           (writeChar p (now_finish i) SP
              (writeChar p (now_finish i) SP st)))
    else if is_printable e then
      writeChar p (now_finish i) (key e) st
    else if String.eqb (key e) "Escape" then
      fullReset st
    else st.

(** The state after a sequence of key events, each handled by the
    render that follows the one before.  This composes the handlers alone;
    [Session.run] has the commits between them, which leave the state as
    it is while the prompt is shown with its spans stored and take the
    spans away once the summary is shown. *)
Definition run (st : State) (evs : list Input) : State :=
  fold_left handleKeyDown evs st.

End Engine.

(** The number of verdicts that are not [untyped]. *)
Definition typed_count (st : State) : nat :=
  length (List.filter is_typed (spans st)).

(** [if (!startTsRef.current) startTsRef.current = Date.now()] *)
Definition start_timer (i : Input) (st : State) : State :=
  if ts_unset (startTs st) then set_startTs (Some (now_start i)) st else st.

(** The Backspace branch of [handleKeyDown]. *)
Definition backspace (st : State) : State :=
  let p := pos st in
  if (p =? 0)%nat then st
  else
    let prev := p - 1 in
    set_pos prev
      match spans st !! prev with
      | Some (Some _) => set_spans (<[prev := Some blank]> (spans st)) st
      | _ => st
      end.

(** The span [writeChar] leaves at [idx] after [ch] was typed there. *)
Definition mark (P : Props) (idx : nat) (ch : string) : Span :=
  let ok := match chars P !! idx with Some e => String.eqb ch e | None => false end in
  {| typedChar := Some ch; cls_correct := ok; cls_incorrect := negb ok |}.

(** Every prompt position carries a span, and the spans with a verdict
    are those below the position. *)
Definition lockstep (P : Props) (st : State) : Prop :=
  length (spans st) = length (chars P) ∧
  ∀ i, i < length (chars P) →
       ∃ sp, spans st !! i = Some (Some sp) ∧ (is_typed (Some sp) = true ↔ i < pos st).


(** What a session may still send out: one attempt until it is finished. *)
Definition budget (st : State) : nat := if finished st then 0 else 1.

End Cached.

(** ** TypingMonaco: the variant that keeps the typed characters *)

Module Monaco.

(** The component's state ([typed], [startTs], [endTs], [finished]) and
    what it has sent out, latest first. *)
Record State := {
  typed : list string;
  startTs : option Z;
  endTs : option Z;
  finished : bool;
  posted : list Attempt;
  notified : list Attempt
}.

(** The caret: [typed.length]. *)
Definition position (st : State) : nat := length (typed st).

(** The class of prompt position [i] in [updateDecorations]. *)
Definition verdict (P : Props) (st : State) (i : nat) : option bool :=
  match typed st !! i, chars P !! i with
  | Some got, Some expected => Some (String.eqb got expected)
  | Some _, None => Some false
  | None, _ => None
  end.

(** The loop of [calcAccuracy(expectedArr, typedArr)]. *)
Fixpoint count_matches (expectedArr typedArr : list string) : nat :=
  match typedArr, expectedArr with
  | got :: ts, expected :: es =>
      (if String.eqb got expected then 1 else 0) + count_matches es ts
  | _, _ => 0
  end.

(** [calcAccuracy(expectedArr, typedArr)] *)
Definition calcAccuracy (expectedArr typedArr : list string) : JsNum.t :=
  if (length typedArr =? 0)%nat then JsNum.of_Z 100
  else JsNum.Math_round
         (JsNum.mul
            (JsNum.div (JsNum.of_nat (count_matches expectedArr typedArr))
                       (JsNum.of_nat (length typedArr)))
            (JsNum.of_Z 100)).

Section Engine.
Variable P : Props.

Definition init : State :=
  {| typed := []; startTs := None; endTs := None; finished := false;
     posted := []; notified := [] |}.

(** [finishIfNeeded()], run by the effect on [typed]; [now] is what
    [Date.now()] returns. *)
Definition finishIfNeeded (now : Z) (st : State) : State :=
  if (length (chars P) <=? length (typed st))%nat && negb (finished st) then
    let durationMs :=
      (now - (if ts_unset (startTs st) then now else default now (startTs st)))%Z in
    let typedStr := String.concat "" (typed st) in
    let wpm := calcWPM (JsNum.of_nat (String.length typedStr)) (JsNum.of_Z durationMs) in
    let accuracy := calcAccuracy (chars P) (typed st) in
    let attempt :=
      {| user := current_user P; problemId := problem_id P; wpm := wpm;
         accuracy := accuracy; rawText := typedStr; durationMs := durationMs |} in
    {| typed := typed st; startTs := startTs st; endTs := Some now;
       finished := true;
       posted := if autoSubmit P then attempt :: posted st else posted st;
       notified := if has_callback P then attempt :: notified st else notified st |}
  else st.

Definition set_typed (l : list string) (st : State) : State :=
  {| typed := l; startTs := startTs st; endTs := endTs st;
     finished := finished st; posted := posted st; notified := notified st |}.

(** [handleKeyDown(e)]: the state its queued updates produce, and
    whether [setTyped] installed a new array, which is what makes the
    effect on [typed] run. *)
Definition handleKeyDown (st : State) (i : Input) : State * bool :=
  let e := ev i in
  if is_paste e then (st, false)
  else
    let st :=
      if ts_unset (startTs st)
      then {| typed := typed st; startTs := Some (now_start i); endTs := endTs st;
              finished := finished st; posted := posted st; notified := notified st |}
      else st in
    if is_printable e then (set_typed (typed st ++ [key e]) st, true)
    else if String.eqb (key e) "Backspace" then
      match typed st with
      | [] => (st, false)
      | _ => (set_typed (take (length (typed st) - 1) (typed st)) st, true)
      end
    else if String.eqb (key e) "Enter" then (set_typed (typed st ++ [NL]) st, true)
    else if String.eqb (key e) "Tab" then
      (set_typed (typed st ++ [SP; SP; SP; SP]) st, true)
    else if String.eqb (key e) "Escape" then
      ({| typed := []; startTs := None; endTs := None; finished := false;
          posted := posted st; notified := notified st |}, true)
    else (st, false).

(** One key event and the render after it: the handler, then the effect
    when [typed] changed. *)
Definition step (st : State) (i : Input) : State :=
  let '(st', changed) := handleKeyDown st i in
  if changed then finishIfNeeded (now_finish i) st' else st'.

Definition run (st : State) (evs : list Input) : State :=
  fold_left step evs st.

End Engine.

End Monaco.

(** ** The server's leaderboard *)

Module Server.

(** A stored attempt of [db.data.attempts]. *)
Record Attempt := {
  id : string;
  user : string;
  problemId : string;
  wpm : Z;
  accuracy : Z;
  rawText : string;
  durationMs : Z;
  createdAt : Z
}.

(** The comparator [(a, b) => b.wpm - a.wpm || b.accuracy - a.accuracy]. *)
Definition compare (a b : Attempt) : Z :=
  let d := (wpm b - wpm a)%Z in
  if (d =? 0)%Z then (accuracy b - accuracy a)%Z else d.

(** [a] may come before [b]: the comparator is not positive. *)
Definition before (a b : Attempt) : Prop := (compare a b <= 0)%Z.

Global Instance before_dec : RelDecision before.
Proof. intros a b. unfold before. apply _. Defined.

(** Where a stable sort puts [a] in front of the sorted [l], whose elements
    all came after [a]: before the first one it may come before, so behind
    those that must precede it and ahead of those that compare equal. *)
Fixpoint insert (a : Attempt) (l : list Attempt) : list Attempt :=
  match l with
  | [] => [a]
  | b :: l' => if decide (before a b) then a :: b :: l' else b :: insert a l'
  end.

(** [attempts.sort(compare)].  [Array.prototype.sort] is stable, and for
    this comparator the outcome of a stable sort is fixed whatever the
    algorithm: ordered by the comparator, attempts that compare equal in the
    order they had.  It is written here as an insertion sort. *)
Definition sort (l : list Attempt) : list Attempt := foldr insert [] l.

(** [a] and [b] compare equal: the same words per minute and accuracy. *)
Definition ties (a b : Attempt) : bool :=
  (wpm a =? wpm b)%Z && (accuracy a =? accuracy b)%Z.

(** [problemId ? a.problemId === problemId : true], for the query
    parameter [q]: absent and empty are falsy. *)
Definition matches (q : option string) (a : Attempt) : bool :=
  match q with
  | Some p => if String.eqb p "" then true else String.eqb (problemId a) p
  | None => true
  end.

(** The handler of [GET /api/leaderboard]. *)
Definition leaderboard (db : list Attempt) (q : option string) : list Attempt :=
  let attempts := List.filter (matches q) db in
  take 50 (sort attempts).

(** [a] ranks above [b], or ties with it: more words per minute, or as
    many and at least the accuracy. *)
Definition ranks_above (a b : Attempt) : Prop :=
  (wpm b < wpm a)%Z ∨ (wpm a = wpm b ∧ (accuracy b <= accuracy a)%Z).

End Server.

(** ** Concrete inputs *)

(** Props for the examples: problem ["p1"], no nickname stored, submission
    and callback on. *)
Definition demo (cs : list string) : Props :=
  {| problem_id := "p1"; chars := cs; nick := None;
     autoSubmit := true; has_callback := true |}.

(** A key pressed without modifiers at clock reading [t]. *)
Definition press (k : string) (t : Z) : Input :=
  {| ev := {| key := k; ctrlKey := false; metaKey := false |};
     now_start := t; now_finish := t |}.

(** The key events that type the characters [cs]: Enter for a newline, the
    character's own key otherwise. *)
Definition type_prompt (cs : list string) (t : Z) : list Input :=
  (λ c, press (if String.eqb c NL then "Enter" else c) t) <$> cs.

(** ** TypingFastCached: what a reset does to a span, and the live metrics *)

Module CachedView.

(** What [fullReset] does to one entry of [spansRef.current]: a span loses
    its classes and its [typedChar], a hole stays a hole. *)
Definition wipe (s : option Cached.Span) : option Cached.Span :=
  match s with Some _ => Some Cached.blank | None => None end.












End CachedView.

(** ** TypingFastCached: a session with its renders *)

(** [Cached.handleKeyDown] is one run of the handler.  Between two events
    React commits the render that the handler's [setPos] and [setReport]
    caused, and the commit acts on [spansRef.current]: the inline ref
    callback of every prompt span that is not a newline runs again and
    stores the span's element at its index; once [report] is set the render
    shows the summary in place of the prompt and of the hidden input, so
    every ref'd span is unmounted and its entry becomes [null].  The layout
    effect on [problem?.id, text] runs once at the mount, after the refs
    were attached, and leaves [spansRef.current = []].  A handler that
    changes neither [pos] nor [report] causes no render.  The parent may
    render the component again at any time, with the same props: the
    problem does not change during a session.

    [Cached.init] is the state of a session whose spans are attached, as
    after Try Again or after a render that follows the mount; [Cached.run]
    composes the handler alone. *)
Module Session.

(** [spansRef.current[i]], [None] for a hole, [null] or an index past the
    array. *)
Definition span_at (l : list (option Cached.Span)) (i : nat) : option Cached.Span :=
  default None (l !! i).

(** The entries after the unmount of the prompt: every one is [null]. *)
Definition detach (l : list (option Cached.Span)) : list (option Cached.Span) :=
  (λ _, None) <$> l.

Section Renders.
Variable P : Props.

(** [spansRef.current] after a commit of the prompt view, from the
    character at index [i] on: a character that is not a newline has its
    element stored, with the classes and the [typedChar] the element
    carries; a newline has no ref, and is a hole when an element is
    stored behind it. *)
Fixpoint attach_from (i : nat) (cs : list string) (old : list (option Cached.Span))
    : list (option Cached.Span) :=
  match cs with
  | [] => []
  | c :: cs' =>
      let rest := attach_from (S i) cs' old in
      if String.eqb c NL
      then match rest with [] => [] | _ :: _ => None :: rest end
      else Some (default Cached.blank (span_at old i)) :: rest
  end.

Definition attach (old : list (option Cached.Span)) : list (option Cached.Span) :=
  attach_from 0 (chars P) old.

(** The component after its mount: the layout effect has emptied
    [spansRef.current]. *)
Definition mount : Cached.State :=
  {| Cached.pos := 0; Cached.spans := []; Cached.startTs := None;
     Cached.finished := false; Cached.report := None;
     Cached.posted := []; Cached.notified := [] |}.

(** The commit after a handler took the component from [before] to
    [after]. *)
Definition commit (before after : Cached.State) : Cached.State :=
  match Cached.report after with
  | Some _ => Cached.set_spans (detach (Cached.spans after)) after
  | None =>
      match Cached.report before with
      | Some _ => Cached.set_spans (attach (Cached.spans after)) after
      | None =>
          if (Cached.pos after =? Cached.pos before)%nat then after
          else Cached.set_spans (attach (Cached.spans after)) after
      end
  end.

(** A render that no handler of the component caused: the ref callbacks
    of the prompt view run again; the summary view has no span. *)
Definition render (st : Cached.State) : Cached.State :=
  match Cached.report st with
  | Some _ => st
  | None => Cached.set_spans (attach (Cached.spans st)) st
  end.

(** What happens to the component: the user presses a key in the hidden
    input, or clicks the button of the view, Reset under the prompt and Try
    Again under the summary, which both run [fullReset]; or the parent
    renders it again. *)
Inductive Action :=
  | Key (i : Input)
  | Button
  | Render.

(** One action and the commit after it.  The summary view has no input:
    no key event arrives while [report] is set. *)
Definition act (st : Cached.State) (a : Action) : Cached.State :=
  match a with
  | Key i =>
      match Cached.report st with
      | Some _ => st
      | None => commit st (Cached.handleKeyDown P st i)
      end
  | Button => commit st (Cached.fullReset st)
  | Render => render st
  end.

Definition run (st : Cached.State) (acts : list Action) : Cached.State :=
  fold_left act acts st.

(** [finishedRef.current] is set exactly when the summary is shown. *)
Definition shown (st : Cached.State) : Prop :=
  Cached.finished st = true ↔ Cached.report st ≠ None.

(** Every stored span belongs to a prompt character that is not a newline,
    and is clean from the position on. *)
Definition orderly (st : Cached.State) : Prop :=
  ∀ i sp, Cached.spans st !! i = Some (Some sp) →
    (∃ c, chars P !! i = Some c ∧ c ≠ NL) ∧ (Cached.pos st ≤ i → sp = Cached.blank).

(** A state in the middle of a handler whose render saw position [p]:
    the position has not gone back, and has moved by one at most where a
    span is stored at [p]; a report is only set past the prompt. *)
Definition midway (p : nat) (st : Cached.State) : Prop :=
  shown st ∧ orderly st ∧
  (Cached.report st ≠ None → length (chars P) < Cached.pos st) ∧
  p ≤ Cached.pos st ∧
  ((∃ sp, Cached.spans st !! p = Some (Some sp)) → Cached.pos st ≤ p + 1).

(** The states of a session between two actions: [shown], [orderly], and
    while the summary is shown no span is stored and the position is past
    the prompt. *)
Definition tame (st : Cached.State) : Prop :=
  shown st ∧ orderly st ∧
  (Cached.report st ≠ None →
   (∀ i, span_at (Cached.spans st) i = None) ∧ length (chars P) < Cached.pos st).


End Renders.

End Session.

(** ** TypingFast: a ref on every span *)

Module Fast.

(** TypingFast has the handlers of TypingFastCached: [writeChar],
    [handleKeyDown], [finishIfNeeded] and [fullReset] read and write the same
    refs and the same [pos] in the same way.  It keeps no report, so nothing
    said of it reads that field.  Its render differs: every prompt
    character, a newline too, gets a span with a ref callback.  This is the
    state of a fresh session with those spans attached and clean. *)
Definition init (P : Props) : Cached.State :=
  {| Cached.pos := 0;
     Cached.spans := (λ _, Some Cached.blank) <$> chars P;
     Cached.startTs := None; Cached.finished := false; Cached.report := None;
     Cached.posted := []; Cached.notified := [] |}.

End Fast.

(** ** TypingMonaco: positions, ranges and decorations *)

Module Editor.

(** [[...text]] for a text of one-unit characters: each character as a
    string of its own. *)
Fixpoint spread (text : string) : list string :=
  match text with
  | EmptyString => []
  | String c s => String c EmptyString :: spread s
  end.

(** [s.split("\n")] *)
Fixpoint split_lines (s : string) : list string :=
  match s with
  | EmptyString => [EmptyString]
  | String c s' =>
      if Ascii.eqb c "010" then EmptyString :: split_lines s'
      else match split_lines s' with
           | l :: ls => String c l :: ls
           | [] => [String c EmptyString]
           end
  end.

(** A Monaco position: both numbers count from 1. *)
Record Position := { lineNumber : nat; column : nat }.

(** [indexToPosition(idx)] *)
Definition indexToPosition (text : string) (idx : nat) : Position :=
  let before := substring 0 idx text in
  let lines := split_lines before in
  {| lineNumber := length lines;
     column := String.length (List.last lines EmptyString) + 1 |}.

(** [new monaco.editor.Range(startLineNumber, startColumn, endLineNumber, endColumn)] *)
Record Range := {
  startLineNumber : nat;
  startColumn : nat;
  endLineNumber : nat;
  endColumn : nat
}.

Definition Range_of (start end_ : Position) : Range :=
  {| startLineNumber := lineNumber start; startColumn := column start;
     endLineNumber := lineNumber end_; endColumn := column end_ |}.

(** [rangeForIndex(idx)] *)
Definition rangeForIndex (text : string) (idx : nat) : Range :=
  let start := indexToPosition text idx in
  let end_ := indexToPosition text (idx + 1) in
  Range_of start end_.

(** The three kinds of decoration [updateDecorations] pushes. *)
Inductive DecorationClass := mt_char_correct | mt_char_incorrect | mt_caret.

Record Decoration := { range : Range; className : DecorationClass }.

(** The decoration of typed character [got] at index [i]:
    [got === expected] fails when the prompt has no character there. *)
Definition char_decoration (text : string) (chars : list string)
    (i : nat) (got : string) : Decoration :=
  {| range := Range_of (indexToPosition text i) (indexToPosition text (i + 1));
     className :=
       match chars !! i with
       | Some expected =>
           if String.eqb got expected then mt_char_correct else mt_char_incorrect
       | None => mt_char_incorrect
       end |}.

(** The caret decoration, pushed while the session is not finished. *)
Definition caret_decoration (text : string) (chars typed : list string) : Decoration :=
  let caretPos := length typed in
  {| range := Range_of (indexToPosition text caretPos)
                       (indexToPosition text (min (caretPos + 1) (length chars)));
     className := mt_caret |}.

(** The list [decs] that [updateDecorations] hands to [deltaDecorations]. *)
Definition updateDecorations (text : string) (typed : list string)
    (finished : bool) : list Decoration :=
  let chars := spread text in
  imap (char_decoration text chars) typed
  ++ (if finished then [] else [caret_decoration text chars typed]).

(** The decoration has the class of a correct character. *)
Definition is_correct_decoration (d : Decoration) : bool :=
  match className d with mt_char_correct => true | _ => false end.

(** Where a position moves when the character [c] is passed. *)
Definition advance (p : Position) (c : ascii) : Position :=
  if Ascii.eqb c "010"
  then {| lineNumber := lineNumber p + 1; column := 1 |}
  else {| lineNumber := lineNumber p; column := column p + 1 |}.

(** The position reached from [p] by passing the characters of [s]. *)
Fixpoint walk (s : string) (p : Position) : Position :=
  match s with
  | EmptyString => p
  | String c s' => walk s' (advance p c)
  end.

(** One position comes before another in the text. *)
Definition precedes (p q : Position) : Prop :=
  lineNumber p < lineNumber q ∨ (lineNumber p = lineNumber q ∧ column p < column q).

End Editor.

(** ** TypingCanvas: the span-per-character variant *)

Module Canvas.

Definition CR : string := String "013" EmptyString.

Section Engine.
Variable P : Props.

(** [handleKeyDown(e)]: the state its queued updates produce, and whether
    [setTyped] installed a new array.  The component keeps the same four
    state variables as TypingMonaco, and its [finishIfNeeded] and
    [calcAccuracy] are the same functions. *)
Definition handleKeyDown (st : Monaco.State) (i : Input) : Monaco.State * bool :=
  let e := ev i in
  if is_paste e then (st, false)
  else
    let st :=
      if ts_unset (Monaco.startTs st)
      then {| Monaco.typed := Monaco.typed st; Monaco.startTs := Some (now_start i);
              Monaco.endTs := Monaco.endTs st; Monaco.finished := Monaco.finished st;
              Monaco.posted := Monaco.posted st; Monaco.notified := Monaco.notified st |}
      else st in
    if is_printable e then
      let char := if String.eqb (key e) CR then NL else key e in
      (Monaco.set_typed (Monaco.typed st ++ [char]) st, true)
    else if String.eqb (key e) "Enter" then
      (Monaco.set_typed (Monaco.typed st ++ [NL]) st, true)
    else if String.eqb (key e) "Backspace" then
      match Monaco.typed st with
      | [] => (st, false)
      | _ => (Monaco.set_typed (take (length (Monaco.typed st) - 1) (Monaco.typed st)) st, true)
      end
    else if String.eqb (key e) "Tab" then
      (Monaco.set_typed (Monaco.typed st ++ [SP; SP; SP; SP]) st, true)
    else if String.eqb (key e) "Escape" then
      ({| Monaco.typed := []; Monaco.startTs := None; Monaco.endTs := None;
          Monaco.finished := false;
          Monaco.posted := Monaco.posted st; Monaco.notified := Monaco.notified st |}, true)
    else (st, false).

(** One key event and the render after it: the handler, then the effect on
    [typed], [if (startTs && !finished) finishIfNeeded()]. *)
Definition step (st : Monaco.State) (i : Input) : Monaco.State :=
  let '(st', changed) := handleKeyDown st i in
  if changed && negb (ts_unset (Monaco.startTs st')) && negb (Monaco.finished st')
  then Monaco.finishIfNeeded P (now_finish i) st'
  else st'.

Definition run (st : Monaco.State) (evs : list Input) : Monaco.State :=
  fold_left step evs st.

End Engine.

(** The classes [renderCharSpan] gives a prompt character: [cursor], and
    [correct] or [incorrect] once the character is behind the caret. *)
Record CharSpan := { cursor : bool; verdict : option bool }.

(** [renderCharSpan(c, idx)] *)
Definition renderCharSpan (typed : list string) (c : string) (idx : nat) : CharSpan :=
  let isPast := (idx <? length typed)%nat in
  let isCurrent := (idx =? length typed)%nat in
  {| cursor := isCurrent;
     verdict :=
       if isPast
       then Some match typed !! idx with
                 | Some typedChar => String.eqb typedChar c
                 | None => false
                 end
       else None |}.

(** The span carries [correct] or [incorrect]. *)
Definition has_verdict (s : CharSpan) : bool :=
  match verdict s with Some _ => true | None => false end.

(** The span carries [correct]. *)
Definition is_correct (s : CharSpan) : bool :=
  match verdict s with Some true => true | _ => false end.

(** The spans of the prompt area: one per prompt character, and the
    [at-end] cursor span when the caret is past the last one. *)
Definition prompt_spans (chars typed : list string) : list CharSpan :=
  imap (λ idx c, renderCharSpan typed c idx) chars
  ++ (if (length chars <=? length typed)%nat
      then [{| cursor := true; verdict := None |}] else []).

(** What the handler's branches append to [typed] for a key event: the
    character of a printable key (a carriage return as a newline), a newline
    for Enter, four spaces for Tab, nothing for the other keys. *)
Definition appended (e : KeyEvent) : list string :=
  if is_printable e then [if String.eqb (key e) CR then NL else key e]
  else if String.eqb (key e) "Enter" then [NL]
  else if String.eqb (key e) "Backspace" then []
  else if String.eqb (key e) "Tab" then [SP; SP; SP; SP]
  else [].

End Canvas.

(** ** TypingTest: the first sketch *)

Module TypingTest.

Record State := { typed : list string; currentIndex : nat }.

Definition init : State := {| typed := []; currentIndex := 0 |}.

(** [prev.slice(0, -1)] *)
Definition drop_last (l : list string) : list string := take (length l - 1) l.

(** [handleKeyDown(e)]: any key of one character is typed, modifiers or
    not. *)
Definition handleKeyDown (st : State) (e : KeyEvent) : State :=
  if (String.length (key e) =? 1)%nat then
    {| typed := typed st ++ [key e]; currentIndex := currentIndex st + 1 |}
  else if String.eqb (key e) "Backspace" && (0 <? currentIndex st)%nat then
    {| typed := drop_last (typed st); currentIndex := currentIndex st - 1 |}
  else st.

(** [restartTest()] *)
Definition restartTest (st : State) : State := {| typed := []; currentIndex := 0 |}.

(** What the user does: a key, or the Restart button. *)
Inductive Action := Key (e : KeyEvent) | RestartButton.

Definition act (st : State) (a : Action) : State :=
  match a with Key e => handleKeyDown st e | RestartButton => restartTest st end.

End TypingTest.

(** ** The server's other endpoints *)

Module Api.

(** A problem of [db.data.problems]. *)
Record Problem := {
  p_id : string;
  title : string;
  text : string;
  difficulty : string
}.

(** The problems [initDB] seeds an empty store with. *)
Definition seed : list Problem :=
  [ {| p_id := "p1"; title := "Reverse String";
       text := "Write a function to reverse a string."; difficulty := "easy" |};
    {| p_id := "p2"; title := "Two Sum";
       text := "Given array nums and target, return indices of the two numbers such that they add up to target.";
       difficulty := "easy" |};
    {| p_id := "p3"; title := "FizzBuzz";
       text := "Write a program that prints the numbers from 1 to n. For multiples of three print 'Fizz' instead of the number and for the multiples of five print 'Buzz'.";
       difficulty := "easy" |} ].

(** [db.data]. *)
Record Data := { problems : list Problem; attempts : list Server.Attempt }.

(** [initDB()] on what [db.read()] found. *)
Definition initDB (d : Data) : Data :=
  match problems d with
  | [] => {| problems := seed; attempts := attempts d |}
  | _ => d
  end.

(** A response: a status code with a JSON error, or the JSON value. *)
Inductive Response (A : Type) := Error (status : nat) (error : string) | Json (value : A).
Arguments Error {A} status error.
Arguments Json {A} value.

(** [GET /api/problems/:id] *)
Definition get_problem (d : Data) (id : string) : Response Problem :=
  match List.find (λ x, String.eqb (p_id x) id) (problems d) with
  | Some p => Json p
  | None => Error 404 "not found"
  end.

(** The body of a [POST /api/attempts] as the clients build it: the three
    numbers are present and whole; the strings may be absent. *)
Record Body := {
  b_user : option string;
  b_problemId : option string;
  b_wpm : Z;
  b_accuracy : Z;
  b_rawText : option string;
  b_durationMs : Z
}.

(** [s || d] for a string that may be absent: absent and empty are falsy. *)
Definition or_else (s : option string) (d : string) : string :=
  match s with
  | Some v => if String.eqb v "" then d else v
  | None => d
  end.

(** [POST /api/attempts]: the response and the attempts stored afterwards.
    [fresh] is what [nanoid()] returns and [now] what [Date.now()] does. *)
Definition post_attempt (db : list Server.Attempt) (req : option Body)
    (fresh : string) (now : Z) : Response Server.Attempt * list Server.Attempt :=
  match req with
  | None => (Error 400 "invalid", db)
  | Some body =>
      match b_problemId body with
      | None => (Error 400 "invalid", db)
      | Some pid =>
          if String.eqb pid "" then (Error 400 "invalid", db)
          else if (300 <? b_wpm body)%Z then (Error 400 "cheat_detected", db)
          else
            let attempt :=
              {| Server.id := fresh;
                 Server.user := or_else (b_user body) "anon";
                 Server.problemId := pid;
                 Server.wpm := b_wpm body;
                 Server.accuracy := b_accuracy body;
                 Server.rawText := or_else (b_rawText body) "";
                 Server.durationMs := b_durationMs body;
                 Server.createdAt := now |} in
            (Json attempt, db ++ [attempt])
      end
  end.

(** A request with what the server draws for it. *)
Record Request := { body : option Body; fresh_id : string; clock : Z }.

(** The store after a sequence of posts. *)
Definition serve (db : list Server.Attempt) (reqs : list Request) : list Server.Attempt :=
  fold_left (λ db r, snd (post_attempt db (body r) (fresh_id r) (clock r))) reqs db.

End Api.

(** * Theorems *)

(** ** Rounding to doubles *)

Section JsNumFacts.
Import JsNum.
Local Open Scope Q_scope.

Lemma rnd_comp (q q' : Q) : q == q' → rnd q = rnd q'.
Proof.
  intros H. unfold rnd.
  rewrite (Qred_complete q q' H).
  replace (q ?= 0) with (q' ?= 0) by (now rewrite H).
  reflexivity.
Qed.

Lemma rnd_zero (q : Q) : q == 0 → rnd q = Fin 0.
Proof. intros H. rewrite (rnd_comp q 0 H). reflexivity. Qed.

Lemma two_pow_pos (z : Z) : 0 < 2 ^ z.
Proof. apply Qpower_0_lt. reflexivity. Qed.

Lemma two_pow_le (a b : Z) : (a <= b)%Z → 2 ^ a <= 2 ^ b.
Proof. intros H. apply Qpower_le_compat_l; [exact H | discriminate]. Qed.

Lemma two_pow_succ (z : Z) : 2 ^ (z + 1) == 2 * 2 ^ z.
Proof. rewrite Qpower_plus by discriminate. change (2 ^ 1) with 2. ring. Qed.

Lemma two_pow_inject (k : Z) : (0 <= k)%Z → inject_Z (2 ^ k) == 2 ^ k.
Proof. intros H. rewrite Zpower_Qpower by exact H. reflexivity. Qed.

Lemma round_half_even_near (x : Q) :
  x - (1 # 2) <= inject_Z (round_half_even x) <= x + (1 # 2).
Proof.
  unfold round_half_even.
  pose proof (Qfloor_le x) as Hlo.
  pose proof (Qlt_floor x) as Hhi.
  rewrite inject_Z_plus in Hhi. change (inject_Z 1) with 1 in Hhi.
  destruct (Qcompare_spec (x - inject_Z (Qfloor x)) (1 # 2)) as [E|L|G].
  - destruct (Z.even (Qfloor x)).
    + split; lra.
    + rewrite inject_Z_plus. change (inject_Z 1) with 1. split; lra.
  - split; lra.
  - rewrite inject_Z_plus. change (inject_Z 1) with 1. split; lra.
Qed.

Lemma log2_bounds_Q (n : Z) :
  (0 < n)%Z → 2 ^ Z.log2 n <= inject_Z n ∧ inject_Z n < 2 * 2 ^ Z.log2 n.
Proof.
  intros Hn.
  destruct (Z.log2_spec n Hn) as [Hlo Hhi].
  pose proof (Z.log2_nonneg n) as Hnn.
  rewrite <- two_pow_succ.
  rewrite <- !two_pow_inject by lia.
  rewrite <- Zle_Qle, <- Zlt_Qlt. split; [exact Hlo | exact Hhi].
Qed.

Lemma ilog2_spec (a : Q) :
  0 < a → 2 ^ ilog2 a <= a ∧ a < 2 ^ (ilog2 a + 1).
Proof.
  intros Ha. unfold ilog2.
  assert (Hn : (0 < Qnum a)%Z).
  { destruct a as [n d]. unfold Qlt in Ha. simpl in *. lia. }
  destruct (log2_bounds_Q (Qnum a) Hn) as [HN1 HN2].
  destruct (log2_bounds_Q (Zpos (Qden a)) eq_refl) as [HD1 HD2].
  assert (Hmul : a * inject_Z (Zpos (Qden a)) == inject_Z (Qnum a)).
  { destruct a as [n d]. unfold Qeq, inject_Z, Qmult. simpl. lia. }
  assert (HD0 : 0 < inject_Z (Zpos (Qden a))).
  { unfold Qlt. simpl. lia. }
  set (ln := Z.log2 (Qnum a)) in *. set (ld := Z.log2 (Zpos (Qden a))) in *.
  assert (HP : 2 ^ (ln - ld) * 2 ^ ld == 2 ^ ln).
  { rewrite <- Qpower_plus by discriminate. now replace (ln - ld + ld)%Z with ln by lia. }
  pose proof (two_pow_pos (ln - ld)) as HP0.
  pose proof (two_pow_pos ld) as HB0.
  pose proof (two_pow_pos ln) as HA0.
  assert (HP' : 2 * 2 ^ (ln - ld - 1) == 2 ^ (ln - ld)).
  { rewrite <- two_pow_succ. now replace (ln - ld - 1 + 1)%Z with (ln - ld)%Z by lia. }
  pose proof (two_pow_pos (ln - ld - 1)) as HP1.
  replace (ln - ld - 1 + 1)%Z with (ln - ld)%Z by lia.
  rewrite two_pow_succ.
  destruct (Qle_bool (2 ^ (ln - ld)) a) eqn:Hb.
  - apply Qle_bool_iff in Hb. split; [exact Hb|].
    set (D := inject_Z (Zpos (Qden a))) in *. set (N := inject_Z (Qnum a)) in *.
    set (P := 2 ^ (ln - ld)) in *. set (B := 2 ^ ld) in *. set (A := 2 ^ ln) in *.
    clearbody D N P B A. nra.
  - assert (Hlt : a < 2 ^ (ln - ld)).
    { apply Qnot_le_lt. intros H. apply Qle_bool_iff in H. congruence. }
    set (D := inject_Z (Zpos (Qden a))) in *. set (N := inject_Z (Qnum a)) in *.
    set (P := 2 ^ (ln - ld)) in *. set (B := 2 ^ ld) in *. set (A := 2 ^ ln) in *.
    set (P1 := 2 ^ (ln - ld - 1)) in *.
    clearbody D N P B A P1. split; nra.
Qed.

Lemma two_pow_1024 : 2 ^ 1024 == 2 * 2 ^ 1023.
Proof. change 1024%Z with (1023 + 1)%Z. apply two_pow_succ. Qed.

Lemma inject_Z_nonneg_from (m : Z) (x : Q) :
  x - (1 # 2) <= inject_Z m → 0 <= x → 0 <= inject_Z m.
Proof.
  intros H Hx.
  assert (Hlt : inject_Z (-1) < inject_Z m).
  { change (inject_Z (-1)) with (-1). lra. }
  rewrite <- Zlt_Qlt in Hlt.
  change 0 with (inject_Z 0). rewrite <- Zle_Qle. lia.
Qed.

(** The shape of a rounded positive rational: a multiple [r] of the unit
    [U] in the last place, within half a unit of [q]. *)
Lemma rnd_pos_shape (q : Q) :
  0 < q →
  ∃ r U, 0 < U ∧ (U <= q ∨ U == 2 ^ (-1074)) ∧
         q - (1 # 2) * U <= r ∧ r <= q + (1 # 2) * U ∧ 0 <= r ∧
         rnd q = if Qle_bool (2 ^ 1024) r then PosInf else Fin (Qred r).
Proof.
  intros Hq.
  unfold rnd. rewrite (proj1 (Qgt_alt q 0) Hq). cbv beta iota zeta.
  assert (Ha : Qabs (Qred q) == q).
  { rewrite Qred_correct. apply Qabs_pos. now apply Qlt_le_weak. }
  set (a := Qabs (Qred q)) in *.
  assert (Ha0 : 0 < a) by (now rewrite Ha).
  destruct (ilog2_spec a Ha0) as [He _].
  set (u := Z.max (ilog2 a - 52) (-1074)).
  assert (Hu : 2 ^ u <= q ∨ 2 ^ u == 2 ^ (-1074)).
  { destruct (Z.max_spec (ilog2 a - 52) (-1074)) as [[_ E]|[_ E]]; fold u in E; rewrite E.
    - now right.
    - left. rewrite <- Ha. eapply Qle_trans; [apply two_pow_le | exact He]. lia. }
  pose proof (two_pow_pos u) as Hu0.
  pose proof (round_half_even_near (a / 2 ^ u)) as [Hm1 Hm2].
  assert (Hx : a / 2 ^ u * 2 ^ u == a).
  { field. intros E. rewrite E in Hu0. now apply Qlt_irrefl in Hu0. }
  assert (Hx0 : 0 <= a / 2 ^ u).
  { apply Qle_shift_div_l; [exact Hu0|]. lra. }
  pose proof (inject_Z_nonneg_from _ _ Hm1 Hx0) as Hm0.
  exists (inject_Z (round_half_even (a / 2 ^ u)) * 2 ^ u), (2 ^ u).
  split; [exact Hu0|]. split; [exact Hu|].
  repeat split.
  - rewrite <- Ha.
    set (M := inject_Z (round_half_even (a / 2 ^ u))) in *.
    set (x := a / 2 ^ u) in *. set (U := 2 ^ u) in *. clearbody M x U. nra.
  - rewrite <- Ha.
    set (M := inject_Z (round_half_even (a / 2 ^ u))) in *.
    set (x := a / 2 ^ u) in *. set (U := 2 ^ u) in *. clearbody M x U. nra.
  - apply Qmult_le_0_compat; [exact Hm0 | now apply Qlt_le_weak].
Qed.


Lemma rnd_finite (q : Q) :
  0 <= q → q < 2 ^ 1023 → ∃ r, rnd q = Fin r ∧ 0 <= r.
Proof.
  intros Hq0 Hhi.
  destruct (Qle_lt_or_eq _ _ Hq0) as [Hq|Hq].
  2:{ exists 0. split; [apply rnd_zero; now symmetry | apply Qle_refl]. }
  destruct (rnd_pos_shape q Hq) as (r & U & HU0 & HU & Hr1 & Hr2 & Hr0 & ->).
  assert (Hb : Qle_bool (2 ^ 1024) r = false).
  { destruct (Qle_bool (2 ^ 1024) r) eqn:E; [|reflexivity].
    apply Qle_bool_iff in E. rewrite two_pow_1024 in E.
    assert (Hs : 2 ^ (-1074) <= 2 ^ 1023) by (apply two_pow_le; lia).
    set (T := 2 ^ 1023) in *. set (S := 2 ^ (-1074)) in *. clearbody T S.
    destruct HU as [HU|HU]; [|rewrite HU in *]; lra. }
  rewrite Hb. exists (Qred r). split; [reflexivity|]. now rewrite Qred_correct.
Qed.



Lemma div_fin_pos (a b : Q) : 0 < b → div (Fin a) (Fin b) = rnd (a / b).
Proof. intros Hb. unfold div. now rewrite (proj1 (Qgt_alt b 0) Hb). Qed.








(** In doubles [0.6 / 0.0032] falls just below 187.5, where the exact
    quotient lies: three characters in 192 ms are 187 words per minute. *)
Example calcWPM_halfway : calcWPM (of_Z 3) (of_Z 192) = of_Z 187.
Proof. vm_compute. reflexivity. Qed.

(** The doubles nearest to 1/10 and to 1/3. *)
Example tenth_double :
  div (of_Z 1) (of_Z 10) = Fin (3602879701896397 # 36028797018963968).
Proof. vm_compute. reflexivity. Qed.

Example third_double :
  div (of_Z 1) (of_Z 3) = Fin (6004799503160661 # 18014398509481984).
Proof. vm_compute. reflexivity. Qed.

End JsNumFacts.

(** ** The engine of TypingFastCached *)

Import Cached.

Lemma one_char_string (k : string) :
  String.length k = 1 → ∃ c, k = String c EmptyString.
Proof. destruct k as [|c [|d k]]; cbn; intros H; try discriminate. eauto. Qed.

Lemma printable_classify (e : KeyEvent) :
  is_printable e = true → classify e = KPrintable.
Proof.
  unfold classify, is_printable, is_paste. intros H.
  apply andb_prop in H as [H Hm]. apply andb_prop in H as [Hl Hc].
  apply Nat.eqb_eq in Hl. destruct (one_char_string _ Hl) as [c Hk].
  destruct (ctrlKey e), (metaKey e); try discriminate. cbn [orb andb negb].
  rewrite Hk. cbn.
  repeat match goal with |- context [Ascii.eqb ?a ?b] => destruct (Ascii.eqb a b) end;
    reflexivity.
Qed.

(** A named key takes its own branch whatever the modifiers. *)
Ltac named_key H :=
  unfold classify, is_paste, is_printable; rewrite H; cbn;
  now rewrite andb_false_r.

(** Walk down the tests of [classify] in [H]. *)
Ltac walk_tests H :=
  repeat match type of H with
         | (if ?b then _ else _) = _ => destruct b eqn:?; try discriminate
         end.

Lemma enter_classify (e : KeyEvent) : key e = "Enter" → classify e = KEnter.
Proof. intros H. named_key H. Qed.

Lemma tab_classify (e : KeyEvent) : key e = "Tab" → classify e = KTab.
Proof. intros H. named_key H. Qed.

Lemma backspace_classify (e : KeyEvent) : key e = "Backspace" → classify e = KBackspace.
Proof. intros H. named_key H. Qed.

Lemma escape_classify (e : KeyEvent) : key e = "Escape" → classify e = KEscape.
Proof. intros H. named_key H. Qed.

Lemma classify_escape (e : KeyEvent) : classify e = KEscape → key e = "Escape".
Proof.
  unfold classify. intros H. walk_tests H. now apply String.eqb_eq.
Qed.

Lemma classify_paste (e : KeyEvent) : classify e = KPaste ↔ is_paste e = true.
Proof.
  unfold classify. destruct (is_paste e) eqn:E; [done|].
  split; [|discriminate]. intros H. walk_tests H.
Qed.

Section CachedHandlers.
Variable P : Props.

Lemma handleKeyDown_classify (st : State) (i : Input) :
  handleKeyDown P st i =
  match classify (ev i) with
  | KPaste => st
  | KBackspace => backspace (start_timer i st)
  | KEnter => writeChar P (pos st) (now_finish i) NL (start_timer i st)
  | KTab =>
      let w := writeChar P (pos st) (now_finish i) SP in
      w (w (w (w (start_timer i st))))
  | KPrintable => writeChar P (pos st) (now_finish i) (key (ev i)) (start_timer i st)
  | KEscape => fullReset (start_timer i st)
  | KOther => start_timer i st
  end.
Proof.
  unfold handleKeyDown, classify, backspace, start_timer.
  destruct (is_paste (ev i)); [reflexivity|].
  assert (Hp : ∀ s, pos (if ts_unset (startTs st) then set_startTs s st else st) = pos st)
    by (intros s; destruct (ts_unset (startTs st)); reflexivity).
  rewrite Hp.
  repeat match goal with |- context [if ?b then _ else _] =>
    lazymatch b with
    | ts_unset _ => fail
    | _ => destruct b; try reflexivity
    end end.
Qed.

Lemma finishIfNeeded_frame (p : nat) (now : Z) (st : State) :
  pos (finishIfNeeded P p now st) = pos st ∧
  spans (finishIfNeeded P p now st) = spans st ∧
  startTs (finishIfNeeded P p now st) = startTs st.
Proof.
  unfold finishIfNeeded. destruct (finished st); [done|].
  destruct (length (chars P) <=? p)%nat; done.
Qed.

Lemma finishIfNeeded_finished (p : nat) (now : Z) (st : State) :
  finished st = true → finishIfNeeded P p now st = st.
Proof. intros H. unfold finishIfNeeded. now rewrite H. Qed.

Lemma finishIfNeeded_not_due (p : nat) (now : Z) (st : State) :
  p < length (chars P) → finishIfNeeded P p now st = st.
Proof.
  intros H. unfold finishIfNeeded. destruct (finished st); [done|].
  destruct (Nat.leb_spec (length (chars P)) p); [lia | done].
Qed.

Lemma finishIfNeeded_due (p : nat) (now : Z) (st : State) :
  length (chars P) ≤ p → finished (finishIfNeeded P p now st) = true.
Proof.
  intros H. unfold finishIfNeeded. destruct (finished st) eqn:E; [done|].
  destruct (Nat.leb_spec (length (chars P)) p); [done | lia].
Qed.

Lemma writeChar_finished (p : nat) (now : Z) (ch : string) (st : State) :
  finished st = true → writeChar P p now ch st = st.
Proof. intros H. unfold writeChar. now rewrite H. Qed.

Lemma writeChar_on_span (p : nat) (now : Z) (ch : string) (st : State) (sp : Span) :
  finished st = false → spans st !! p = Some (Some sp) →
  writeChar P p now ch st =
  finishIfNeeded P p now
    (set_pos (p + 1) (set_spans (<[p := Some (mark P p ch)]> (spans st)) st)).
Proof. intros Hf Hs. unfold writeChar. rewrite Hf, Hs. reflexivity. Qed.

Lemma writeChar_beyond (p : nat) (now : Z) (ch : string) (st : State) :
  finished st = false → (spans st !! p = None ∨ spans st !! p = Some None) →
  writeChar P p now ch st = finishIfNeeded P p now (set_pos (pos st + 1) st).
Proof. intros Hf [Hs|Hs]; unfold writeChar; rewrite Hf, Hs; reflexivity. Qed.

Lemma writeChar_startTs (p : nat) (now : Z) (ch : string) (st : State) :
  startTs (writeChar P p now ch st) = startTs st.
Proof.
  unfold writeChar. destruct (finished st); [done|].
  destruct (spans st !! p) as [[sp|]|];
    now rewrite (proj2 (proj2 (finishIfNeeded_frame _ _ _))).
Qed.


(** A second [writeChar] from the same render repeats the first one: it
    reads the same [pos], so it overwrites the same span and queues the same
    position. *)
Lemma writeChar_twice (p : nat) (now : Z) (ch : string) (st : State) :
  (length (chars P) ≤ p ∨ ∃ sp, spans st !! p = Some (Some sp)) →
  writeChar P p now ch (writeChar P p now ch st) = writeChar P p now ch st.
Proof.
  intros H.
  destruct (finished st) eqn:Hf.
  { rewrite (writeChar_finished _ _ _ st Hf). apply writeChar_finished, Hf. }
  destruct (spans st !! p) as [[sp|]|] eqn:Hs.
  - rewrite (writeChar_on_span _ _ _ st sp Hf Hs).
    set (st1 := set_pos _ _).
    destruct (finished (finishIfNeeded P p now st1)) eqn:Hf1.
    { now rewrite writeChar_finished. }
    assert (Hst1 : finishIfNeeded P p now st1 = st1).
    { unfold finishIfNeeded in *. change (finished st1) with (finished st) in *.
      rewrite Hf in *. destruct (length (chars P) <=? p)%nat; [discriminate | done]. }
    rewrite Hst1.
    assert (Hl : spans st1 !! p = Some (Some (mark P p ch))).
    { unfold st1. cbn. apply list_lookup_insert_eq. eapply lookup_lt_Some, Hs. }
    rewrite (writeChar_on_span _ _ _ st1 _ Hf Hl).
    unfold st1 at 1. cbn. rewrite list_insert_insert_eq. exact Hst1.
  - destruct H as [H|[sp H]]; [|congruence].
    rewrite (writeChar_beyond _ _ _ st Hf) by now right.
    apply writeChar_finished, finishIfNeeded_due, H.
  - destruct H as [H|[sp H]]; [|congruence].
    rewrite (writeChar_beyond _ _ _ st Hf) by now left.
    apply writeChar_finished, finishIfNeeded_due, H.
Qed.

End CachedHandlers.

Section CachedLockstep.
Variable P : Props.

Lemma count_below (f : option Span → bool) (l : list (option Span)) (k : nat) :
  (∀ i x, l !! i = Some x → (f x = true ↔ i < k)) →
  length (List.filter f l) = min k (length l).
Proof.
  revert k. induction l as [|x l IH]; intros k H.
  - cbn. lia.
  - cbn [List.filter]. destruct k as [|k].
    + destruct (f x) eqn:E.
      * apply (H 0 x eq_refl) in E. lia.
      * rewrite (IH 0); [cbn; lia|].
        intros i y Hy. split; [|lia]. intros Hf.
        apply (H (S i) y Hy) in Hf. lia.
    + destruct (f x) eqn:E.
      * cbn [length]. rewrite (IH k); [lia|].
        intros i y Hy. rewrite (H (S i) y Hy). lia.
      * assert (f x = true) by (apply (H 0 x eq_refl); lia). congruence.
Qed.

Lemma lockstep_count (st : State) :
  lockstep P st → typed_count st = min (pos st) (length (chars P)).
Proof.
  intros [Hlen H]. unfold typed_count. rewrite <- Hlen.
  apply count_below. intros i x Hx.
  assert (Hi : i < length (chars P)) by (rewrite <- Hlen; eapply lookup_lt_Some, Hx).
  destruct (H i Hi) as (sp & Hsp & Ht). rewrite Hsp in Hx. now inversion Hx.
Qed.

Lemma init_lockstep :
  Forall (λ c, c ≠ NL) (chars P) → lockstep P (init P).
Proof.
  intros Hnl. split.
  - cbn. unfold render_spans. apply length_fmap.
  - intros i Hi. exists blank. cbn. unfold render_spans. split; [|split; [discriminate | lia]].
    rewrite list_lookup_fmap.
    destruct (lookup_lt_is_Some_2 (chars P) i Hi) as [c Hc]. rewrite Hc. cbn.
    rewrite Forall_lookup in Hnl. specialize (Hnl i c Hc).
    destruct (String.eqb_spec c NL); [contradiction | reflexivity].
Qed.

Lemma start_timer_lockstep (i : Input) (st : State) :
  lockstep P st → lockstep P (start_timer i st).
Proof. unfold start_timer. now destruct (ts_unset (startTs st)). Qed.

Lemma fullReset_lockstep (st : State) : lockstep P st → lockstep P (fullReset st).
Proof.
  intros [Hlen H]. split.
  - cbn. now rewrite length_fmap.
  - intros i Hi. destruct (H i Hi) as (sp & Hsp & _). exists blank. cbn.
    rewrite list_lookup_fmap, Hsp. split; [reflexivity|]. split; [discriminate | lia].
Qed.

Lemma backspace_lockstep (st : State) : lockstep P st → lockstep P (backspace st).
Proof.
  intros [Hlen H]. unfold backspace.
  destruct (Nat.eqb_spec (pos st) 0) as [E|E]; [now split|].
  destruct (spans st !! (pos st - 1)) as [[sp|]|] eqn:Hs.
  - assert (Hlt : pos st - 1 < length (spans st)) by (eapply lookup_lt_Some, Hs).
    split; cbn.
    + now rewrite length_insert.
    + intros i Hi. destruct (decide (i = pos st - 1)) as [->|Hne].
      * exists blank. rewrite list_lookup_insert_eq by exact Hlt.
        split; [reflexivity|]. split; [discriminate | lia].
      * destruct (H i Hi) as (sq & Hsq & Ht). exists sq.
        rewrite list_lookup_insert_ne by congruence.
        split; [exact Hsq|]. rewrite Ht. lia.
  - assert (Hlt : pos st - 1 < length (chars P)).
    { rewrite <- Hlen. eapply lookup_lt_Some, Hs. }
    destruct (H _ Hlt) as (sq & Hsq & _). congruence.
  - apply lookup_ge_None_1 in Hs. split; cbn; [exact Hlen|].
    intros i Hi. destruct (H i Hi) as (sq & Hsq & Ht). exists sq.
    split; [exact Hsq|]. rewrite Ht. lia.
Qed.

Lemma mark_typed (idx : nat) (ch : string) : is_typed (Some (mark P idx ch)) = true.
Proof.
  unfold is_typed, status, mark. cbn.
  destruct (chars P !! idx) as [e|]; [destruct (String.eqb ch e)|]; reflexivity.
Qed.

Lemma writeChar_lockstep (now : Z) (ch : string) (st : State) :
  lockstep P st → lockstep P (writeChar P (pos st) now ch st).
Proof.
  intros [Hlen H].
  destruct (finished st) eqn:Hf.
  { rewrite writeChar_finished by exact Hf. now split. }
  destruct (le_lt_dec (length (chars P)) (pos st)) as [Hge|Hlt].
  - rewrite writeChar_beyond; [|exact Hf|left; apply lookup_ge_None_2; lia].
    destruct (finishIfNeeded_frame P (pos st) now (set_pos (pos st + 1) st)) as (Hp & Hs & _).
    split; [now rewrite Hs|]. intros i Hi. rewrite Hs, Hp. cbn.
    destruct (H i Hi) as (sq & Hsq & Ht). exists sq. split; [exact Hsq|]. rewrite Ht. lia.
  - destruct (H _ Hlt) as (sp & Hsp & _).
    rewrite (writeChar_on_span P _ _ _ st sp Hf Hsp).
    rewrite finishIfNeeded_not_due by exact Hlt.
    split; cbn; [now rewrite length_insert|].
    intros i Hi. destruct (decide (i = pos st)) as [->|Hne].
    + exists (mark P (pos st) ch). rewrite list_lookup_insert_eq by lia.
      split; [reflexivity|]. rewrite mark_typed. split; [lia | reflexivity].
    + destruct (H i Hi) as (sq & Hsq & Ht). exists sq.
      rewrite list_lookup_insert_ne by congruence.
      split; [exact Hsq|]. rewrite Ht. lia.
Qed.

Lemma tab_once (now : Z) (st : State) :
  lockstep P st →
  let w := writeChar P (pos st) now SP in
  w (w (w (w st))) = w st.
Proof.
  intros [Hlen H] w. unfold w.
  assert (Hc : length (chars P) ≤ pos st ∨ ∃ sp, spans st !! pos st = Some (Some sp)).
  { destruct (le_lt_dec (length (chars P)) (pos st)) as [Hge|Hlt]; [now left | right].
    destruct (H _ Hlt) as (sp & Hsp & _). eauto. }
  now rewrite !(writeChar_twice P _ _ _ st Hc).
Qed.

Lemma handleKeyDown_lockstep (st : State) (i : Input) :
  lockstep P st → lockstep P (handleKeyDown P st i).
Proof.
  intros H. rewrite handleKeyDown_classify.
  pose proof (start_timer_lockstep i st H) as H1.
  assert (Hp : pos (start_timer i st) = pos st).
  { unfold start_timer. now destruct (ts_unset (startTs st)). }
  destruct (classify (ev i)); try assumption.
  - now apply backspace_lockstep.
  - rewrite <- Hp. now apply writeChar_lockstep.
  - cbv zeta. rewrite <- Hp. rewrite tab_once by exact H1. now apply writeChar_lockstep.
  - rewrite <- Hp. now apply writeChar_lockstep.
  - now apply fullReset_lockstep.
Qed.

Lemma run_lockstep (st : State) (evs : list Input) :
  lockstep P st → lockstep P (run P st evs).
Proof.
  revert st. induction evs as [|i evs IH]; intros st H; [exact H|].
  cbn. apply IH, handleKeyDown_lockstep, H.
Qed.

End CachedLockstep.

Section CachedReach.
Variable P : Props.


Lemma start_timer_frame (i : Input) (st : State) :
  pos (start_timer i st) = pos st ∧ spans (start_timer i st) = spans st ∧
  finished (start_timer i st) = finished st ∧ report (start_timer i st) = report st ∧
  posted (start_timer i st) = posted st ∧ notified (start_timer i st) = notified st.
Proof. unfold start_timer. now destruct (ts_unset (startTs st)). Qed.

Lemma backspace_frame (st : State) :
  startTs (backspace st) = startTs st ∧
  finished (backspace st) = finished st ∧ report (backspace st) = report st ∧
  posted (backspace st) = posted st ∧ notified (backspace st) = notified st ∧
  length (spans (backspace st)) = length (spans st).
Proof.
  unfold backspace. destruct (pos st =? 0)%nat; [done|].
  destruct (spans st !! (pos st - 1)) as [[sp|]|]; cbn; repeat split.
  apply length_insert.
Qed.



End CachedReach.

(** A newline of the prompt has no ref'd span: Enter moves the position
    over it and leaves no verdict. *)
Example newline_leaves_no_verdict :
  let P := demo ["a"; NL; "b"] in
  let st := run P (init P) [press "a" 1000; press "Enter" 2000] in
  pos st = 2 ∧ typed_count st = 1.
Proof. vm_compute. auto. Qed.

Section CachedCompletion.
Variable P : Props.

(** What [finishIfNeeded] sends out, against the budget of the session. *)
Lemma finishIfNeeded_budget (p : nat) (now : Z) (st : State) :
  length (posted (finishIfNeeded P p now st)) + budget (finishIfNeeded P p now st)
    ≤ length (posted st) + budget st ∧
  length (notified (finishIfNeeded P p now st)) + budget (finishIfNeeded P p now st)
    ≤ length (notified st) + budget st.
Proof.
  unfold finishIfNeeded, budget. destruct (finished st) eqn:E; [now rewrite E|].
  destruct (length (chars P) <=? p)%nat; [|now rewrite E].
  cbn. destruct (autoSubmit P), (has_callback P); cbn; lia.
Qed.

Lemma writeChar_budget (p : nat) (now : Z) (ch : string) (st : State) :
  length (posted (writeChar P p now ch st)) + budget (writeChar P p now ch st)
    ≤ length (posted st) + budget st ∧
  length (notified (writeChar P p now ch st)) + budget (writeChar P p now ch st)
    ≤ length (notified st) + budget st.
Proof.
  unfold writeChar. destruct (finished st) eqn:E; [lia|].
  destruct (spans st !! p) as [[sp|]|];
    match goal with |- context [finishIfNeeded P p now ?s] =>
      pose proof (finishIfNeeded_budget p now s) as H;
      change (posted s) with (posted st) in H;
      change (notified s) with (notified st) in H;
      change (budget s) with (budget st) in H; exact H
    end.
Qed.

Lemma start_timer_budget (i : Input) (st : State) : budget (start_timer i st) = budget st.
Proof. unfold budget. now rewrite (proj1 (proj2 (proj2 (start_timer_frame i st)))). Qed.

(** A key event other than Escape sends at most what the budget allows. *)
Lemma handleKeyDown_budget (st : State) (i : Input) :
  key (ev i) ≠ "Escape" →
  length (posted (handleKeyDown P st i)) + budget (handleKeyDown P st i)
    ≤ length (posted st) + budget st ∧
  length (notified (handleKeyDown P st i)) + budget (handleKeyDown P st i)
    ≤ length (notified st) + budget st.
Proof.
  intros Hne. rewrite handleKeyDown_classify.
  pose proof (start_timer_frame i st) as (_ & _ & Hf & _ & Hpo & Hno).
  pose proof (start_timer_budget i st) as Hb.
  pose proof (backspace_frame (start_timer i st)) as (_ & Hbf & _ & Hbp & Hbn & _).
  destruct (classify (ev i)) eqn:Hk; cbv zeta.
  - lia.
  - unfold budget in *. rewrite Hbf, Hbp, Hbn, Hf, Hpo, Hno. lia.
  - pose proof (writeChar_budget (pos st) (now_finish i) NL (start_timer i st)) as H.
    rewrite Hpo, Hno, Hb in H. exact H.
  - set (w := writeChar P (pos st) (now_finish i) SP).
    pose proof (writeChar_budget (pos st) (now_finish i) SP (start_timer i st)) as H1.
    pose proof (writeChar_budget (pos st) (now_finish i) SP (w (start_timer i st))) as H2.
    pose proof (writeChar_budget (pos st) (now_finish i) SP (w (w (start_timer i st)))) as H3.
    pose proof (writeChar_budget (pos st) (now_finish i) SP (w (w (w (start_timer i st))))) as H4.
    rewrite Hpo, Hno, Hb in H1. fold w in H1, H2, H3, H4. lia.
  - pose proof (writeChar_budget (pos st) (now_finish i) (key (ev i)) (start_timer i st)) as H.
    rewrite Hpo, Hno, Hb in H. exact H.
  - apply classify_escape in Hk. contradiction.
  - rewrite Hpo, Hno, Hb. lia.
Qed.

(** Once finished, a key event other than Escape leaves the completion
    state and everything sent out as they are. *)
Lemma handleKeyDown_finished (st : State) (i : Input) :
  finished st = true → key (ev i) ≠ "Escape" →
  finished (handleKeyDown P st i) = true ∧
  report (handleKeyDown P st i) = report st ∧
  posted (handleKeyDown P st i) = posted st ∧
  notified (handleKeyDown P st i) = notified st.
Proof.
  intros Hfin Hne. rewrite handleKeyDown_classify.
  pose proof (start_timer_frame i st) as (_ & _ & Hf & Hr & Hpo & Hno).
  pose proof (backspace_frame (start_timer i st)) as (_ & Hbf & Hbr & Hbp & Hbn & _).
  assert (Hf' : finished (start_timer i st) = true) by congruence.
  destruct (classify (ev i)) eqn:Hk; cbv zeta;
    rewrite ?(writeChar_finished P _ _ _ _ Hf').
  - done.
  - now rewrite Hbf, Hbr, Hbp, Hbn, Hf, Hr, Hpo, Hno.
  - now rewrite Hf, Hr, Hpo, Hno.
  - now rewrite Hf, Hr, Hpo, Hno.
  - now rewrite Hf, Hr, Hpo, Hno.
  - apply classify_escape in Hk. contradiction.
  - now rewrite Hf, Hr, Hpo, Hno.
Qed.

(** C4. Over key events without an explicit reset, a session that is
    finished stays finished and nothing more is built or sent; and from any
    state at most one attempt is sent to the server and to the callback, none
    if the session was finished already. *)
Theorem completion_at_most_once (st : State) (evs : list Input) :
  Forall (λ i, key (ev i) ≠ "Escape") evs →
  let st' := run P st evs in
  (finished st = true →
     finished st' = true ∧ report st' = report st ∧
     posted st' = posted st ∧ notified st' = notified st) ∧
  length (posted st') ≤ length (posted st) + budget st ∧
  length (notified st') ≤ length (notified st) + budget st.
Proof.
  intros Hevs. revert st. induction Hevs as [|i evs Hi Hevs IH]; intros st st'.
  - unfold st'. cbn. split; [tauto | lia].
  - unfold st'. change (run P st (i :: evs)) with (run P (handleKeyDown P st i) evs).
    destruct (IH (handleKeyDown P st i)) as (IH1 & IH2 & IH3).
    pose proof (handleKeyDown_budget st i Hi) as [Hb1 Hb2].
    split; [|lia].
    intros Hfin. destruct (handleKeyDown_finished st i Hfin Hi) as (H1 & H2 & H3 & H4).
    destruct (IH1 H1) as (K1 & K2 & K3 & K4).
    repeat split; congruence.
Qed.

(** X1. Over any key events, resets included, at most one attempt is sent
    per session: the attempts posted are at most those posted before, one
    for the session in progress if it is not finished, and one for every
    Escape among the events. *)
Lemma attempts_per_session (st : State) (evs : list Input) :
  length (posted (run P st evs)) + budget (run P st evs)
    ≤ length (posted st) + budget st
      + length (List.filter (λ i, String.eqb (key (ev i)) "Escape") evs).
Proof.
  revert st. induction evs as [|i evs IH]; intros st; [cbn; lia|].
  change (run P st (i :: evs)) with (run P (handleKeyDown P st i) evs).
  specialize (IH (handleKeyDown P st i)). cbn [List.filter].
  destruct (String.eqb_spec (key (ev i)) "Escape") as [E|E].
  - assert (Hs : length (posted (handleKeyDown P st i)) = length (posted st)).
    { rewrite handleKeyDown_classify, (escape_classify _ E). cbn.
      now rewrite (proj1 (proj2 (proj2 (proj2 (proj2 (start_timer_frame i st)))))). }
    assert (Hb : budget (handleKeyDown P st i) ≤ 1).
    { unfold budget. destruct (finished _); lia. }
    cbn [length]. lia.
  - pose proof (handleKeyDown_budget st i E). lia.
Qed.

(** C10. Once the session is finished, printable characters, Enter and Tab
    leave the position and every span as they are, and the session
    finished. *)
Theorem finished_freezes_typing (st : State) (evs : list Input) :
  finished st = true →
  Forall (λ i, typing_key (ev i)) evs →
  let st' := run P st evs in
  pos st' = pos st ∧ spans st' = spans st ∧ finished st' = true.
Proof.
  intros Hfin Hevs. revert st Hfin.
  induction Hevs as [|i evs Hi Hevs IH]; intros st Hfin st'; [done|].
  unfold st'. change (run P st (i :: evs)) with (run P (handleKeyDown P st i) evs).
  assert (H : pos (handleKeyDown P st i) = pos st ∧
              spans (handleKeyDown P st i) = spans st ∧
              finished (handleKeyDown P st i) = true).
  { rewrite handleKeyDown_classify.
    pose proof (start_timer_frame i st) as (Hp & Hs & Hf & _).
    assert (Hf' : finished (start_timer i st) = true) by congruence.
    destruct Hi as [Hi|[Hi|Hi]];
      [rewrite (printable_classify _ Hi) | rewrite (enter_classify _ Hi)
      | rewrite (tab_classify _ Hi)];
      cbv zeta; rewrite ?(writeChar_finished P _ _ _ _ Hf'); auto. }
  destruct H as (H1 & H2 & H3).
  destruct (IH _ H3) as (K1 & K2 & K3).
  repeat split; congruence.
Qed.

End CachedCompletion.

Lemma completion_at_most_once_witness :
  let P := demo ["a"] in
  let evs := [press "c" 3000; press "ArrowLeft" 4000; press "Tab" 5000] in
  let st := run P (init P) [press "a" 1000; press "b" 2000] in
  Forall (λ i, key (ev i) ≠ "Escape") evs ∧ finished st = true ∧
  length (posted (run P st evs)) = 1.
Proof.
  intros P evs st.
  assert (H : Forall (λ i, key (ev i) ≠ "Escape") evs).
  { repeat constructor; discriminate. }
  split; [exact H|]. split; [reflexivity|].
  destruct (completion_at_most_once P st evs H) as (K & _).
  destruct (K eq_refl) as (_ & _ & -> & _). reflexivity.
Defined.

Lemma finished_freezes_typing_witness :
  let P := demo ["a"] in
  let evs := [press "c" 3000; press "Enter" 4000; press "Tab" 5000] in
  let st := run P (init P) [press "a" 1000; press "b" 2000] in
  finished st = true ∧ Forall (λ i, typing_key (ev i)) evs ∧ pos (run P st evs) = 2.
Proof.
  intros P evs st.
  assert (H : Forall (λ i, typing_key (ev i)) evs).
  { constructor; [left; reflexivity|].
    constructor; [right; left; reflexivity|].
    constructor; [right; right; reflexivity|]. constructor. }
  split; [reflexivity|]. split; [exact H|].
  destruct (finished_freezes_typing P st evs eq_refl H) as (-> & _). reflexivity.
Defined.

Section CachedTimer.
Variable P : Props.

Lemma start_timer_startTs (i : Input) (st : State) :
  startTs (start_timer i st) =
  if ts_unset (startTs st) then Some (now_start i) else startTs st.
Proof. unfold start_timer. now destruct (ts_unset (startTs st)). Qed.

(** C6, amended. A rejected paste changes nothing.  Escape clears the
    start timestamp.  Every other key event, Backspace at position zero,
    arrows and lone modifiers included, sets the start timestamp to the
    current time when it is unset and leaves it alone when it is set.
    Backspace leaves the finished flag as it is. *)
Theorem timer_start (st : State) (i : Input) :
  (is_paste (ev i) = true → handleKeyDown P st i = st) ∧
  (key (ev i) = "Escape" → startTs (handleKeyDown P st i) = None) ∧
  (is_paste (ev i) = false → key (ev i) ≠ "Escape" →
     startTs (handleKeyDown P st i) =
       if ts_unset (startTs st) then Some (now_start i) else startTs st) ∧
  (key (ev i) = "Backspace" → finished (handleKeyDown P st i) = finished st).
Proof.
  rewrite handleKeyDown_classify.
  pose proof (start_timer_startTs i st) as Hts.
  pose proof (start_timer_frame i st) as (_ & _ & Hf & _).
  pose proof (backspace_frame (start_timer i st)) as (Hbt & Hbf & _).
  repeat split.
  - intros Hp. now rewrite (proj2 (classify_paste _) Hp).
  - intros He. now rewrite (escape_classify _ He).
  - intros Hp He.
    destruct (classify (ev i)) eqn:Hk; cbv zeta; rewrite ?writeChar_startTs; try assumption.
    + apply classify_paste in Hk. congruence.
    + now rewrite Hbt.
    + apply classify_escape in Hk. contradiction.
  - intros Hb. now rewrite (backspace_classify _ Hb), Hbf.
Qed.


(** Under the lockstep invariant a Tab is one [writeChar(" ")]: the four
    calls read the same [pos]. *)
Lemma tab_single_write (st : State) (i : Input) :
  lockstep P st → key (ev i) = "Tab" →
  handleKeyDown P st i = writeChar P (pos st) (now_finish i) SP (start_timer i st).
Proof.
  intros H Hk. rewrite handleKeyDown_classify, (tab_classify _ Hk).
  pose proof (tab_once P (now_finish i) (start_timer i st) (start_timer_lockstep P i st H)) as Ht.
  cbv zeta in Ht. rewrite (proj1 (start_timer_frame i st)) in Ht. exact Ht.
Qed.

(** X2. In every state that keeps the spans in step with the position, a
    Tab does what one press of the space bar does: the two handlers leave
    the same state. *)
Lemma tab_equals_space (st : State) (t : Z) :
  lockstep P st →
  handleKeyDown P st (press "Tab" t) = handleKeyDown P st (press " " t).
Proof.
  intros H. rewrite (tab_single_write st (press "Tab" t) H eq_refl).
  rewrite (handleKeyDown_classify P st (press " " t)).
  reflexivity.
Qed.

End CachedTimer.

(** C6 as the spec states it fails: Backspace at position zero and an
    arrow key start the timer. *)
Lemma timer_started_by_any_key :
  let P := demo ["a"; "b"] in
  pos (init P) = 0 ∧ startTs (init P) = None ∧
  startTs (handleKeyDown P (init P) (press "Backspace" 1000)) = Some 1000%Z ∧
  startTs (handleKeyDown P (init P) (press "ArrowLeft" 1000)) = Some 1000%Z.
Proof. vm_compute. auto. Qed.

(** C2 at its failing input: on the prompt of four spaces and an x, one
    Tab moves the position from 0 to 1 and marks the first space only, in a
    fresh session and likewise after a character was typed and deleted. *)
Theorem tab_marks_one_space :
  let P := demo [" "; " "; " "; " "; "x"] in
  let st := handleKeyDown P (init P) (press "Tab" 1000) in
  let su := run P (init P) [press "q" 1000; press "Backspace" 2000; press "Tab" 3000] in
  (pos st = 1 ∧
   status <$> spans st = [correct; untyped; untyped; untyped; untyped]) ∧
  (pos su = 1 ∧
   status <$> spans su = [correct; untyped; untyped; untyped; untyped]).
Proof. vm_compute. auto. Qed.

Section CachedRoundTrip.
Variable P : Props.



End CachedRoundTrip.

(** C5 at its failing inputs. After typing the prompt ["a"] exactly, the
    session is not finished and no attempt exists; the record appears with
    the next keystroke only.  On the prompt of [a], a newline and [b], the
    text of the record built by that keystroke is not the prompt: it has
    lost the newline. *)
Theorem roundtrip_builds_no_record :
  let P := demo ["a"] in
  let st := run P (init P) (type_prompt (chars P) 1000) in
  let st' := handleKeyDown P st (press "z" 2000) in
  let Q := demo ["a"; NL; "b"] in
  let su := run Q (init Q) (type_prompt (chars Q) 1000 ++ [press "z" 2000]) in
  (pos st = 1 ∧ finished st = false ∧ report st = None ∧
   posted st = [] ∧ notified st = []) ∧
  (finished st' = true ∧ length (posted st') = 1) ∧
  (rawText <$> posted su = ["ab"] ∧
   rawText <$> posted su ≠ [String.concat "" (chars Q)]).
Proof. vm_compute. repeat split; discriminate. Qed.

(** ** The engine of TypingMonaco *)

Section MonacoFacts.
Variable P : Props.

Lemma monaco_run_app (st : Monaco.State) (a b : list Input) :
  Monaco.run P st (a ++ b) = Monaco.run P (Monaco.run P st a) b.
Proof. apply fold_left_app. Qed.

Lemma monaco_finishIfNeeded_typed (now : Z) (st : Monaco.State) :
  Monaco.typed (Monaco.finishIfNeeded P now st) = Monaco.typed st.
Proof.
  unfold Monaco.finishIfNeeded.
  now destruct ((length (chars P) <=? length (Monaco.typed st))%nat
                && negb (Monaco.finished st)).
Qed.

(** X4. In TypingMonaco one Tab appends four spaces: the position advances
    by four, and each of the four positions whose prompt character is a
    space is marked correct. *)
Lemma monaco_tab_four (st : Monaco.State) (i : Input) :
  key (ev i) = "Tab" →
  let st' := Monaco.step P st i in
  Monaco.typed st' = Monaco.typed st ++ [SP; SP; SP; SP] ∧
  Monaco.position st' = Monaco.position st + 4 ∧
  (∀ j, j < 4 → chars P !! (Monaco.position st + j) = Some SP →
        Monaco.verdict P st' (Monaco.position st + j) = Some true).
Proof.
  intros Hk st'.
  assert (Ht : Monaco.typed st' = Monaco.typed st ++ [SP; SP; SP; SP]).
  { unfold st', Monaco.step, Monaco.handleKeyDown, is_paste, is_printable.
    rewrite Hk. cbn. rewrite andb_false_r.
    rewrite monaco_finishIfNeeded_typed. cbn.
    now destruct (ts_unset (Monaco.startTs st)). }
  split; [exact Ht|]. split.
  - unfold Monaco.position. rewrite Ht, length_app. reflexivity.
  - intros j Hj Hc. unfold Monaco.verdict, Monaco.position in *. rewrite Ht, Hc.
    rewrite lookup_app_r by lia.
    replace (length (Monaco.typed st) + j - length (Monaco.typed st)) with j by lia.
    destruct j as [|[|[|[|j]]]]; try reflexivity. lia.
Qed.

Lemma count_matches_same (l : list string) : Monaco.count_matches l l = length l.
Proof.
  induction l as [|c l IH]; [reflexivity|].
  cbn. now rewrite String.eqb_refl, IH.
Qed.

Lemma monaco_accuracy_all_correct (l : list string) :
  l ≠ [] → Monaco.calcAccuracy l l = JsNum.of_Z 100.
Proof.
  intros Hl. unfold Monaco.calcAccuracy. rewrite count_matches_same.
  destruct l as [|c l]; [contradiction|].
  change (length (c :: l) =? 0)%nat with false. cbv iota.
  set (n := length (c :: l)).
  assert (Hn : (0 < inject_Z (Z.of_nat n))%Q).
  { change 0%Q with (inject_Z 0). rewrite <- Zlt_Qlt. unfold n. cbn [length]. lia. }
  unfold JsNum.of_nat, JsNum.of_Z at 1 2. rewrite div_fin_pos by exact Hn.
  rewrite (rnd_comp _ 1).
  - vm_compute. reflexivity.
  - field. intros E. rewrite E in Hn. now apply Qlt_irrefl in Hn.
Qed.

(** The key of [type_prompt] for a character appends that character. *)
Lemma monaco_type_char (st : Monaco.State) (c : string) (t : Z) :
  String.length c = 1 ∨ c = NL →
  let i := press (if String.eqb c NL then "Enter" else c) t in
  ∃ st1, Monaco.handleKeyDown st i = (st1, true) ∧
         Monaco.typed st1 = Monaco.typed st ++ [c] ∧
         Monaco.finished st1 = Monaco.finished st ∧
         Monaco.posted st1 = Monaco.posted st ∧
         Monaco.notified st1 = Monaco.notified st.
Proof.
  intros Hc i. unfold i, Monaco.handleKeyDown, is_paste, is_printable.
  destruct (String.eqb_spec c NL) as [->|Hne].
  - cbn. eexists. split; [reflexivity|].
    destruct (ts_unset (Monaco.startTs st)); cbn; auto.
  - destruct Hc as [Hc|Hc]; [|contradiction].
    cbn. rewrite Hc. cbn. eexists. split; [reflexivity|].
    destruct (ts_unset (Monaco.startTs st)); cbn; auto.
Qed.

Lemma monaco_typing_prefix (t : Z) (k : nat) :
  Forall (λ c, String.length c = 1 ∨ c = NL) (chars P) →
  k < length (chars P) →
  let st := Monaco.run P Monaco.init (type_prompt (take k (chars P)) t) in
  Monaco.typed st = take k (chars P) ∧ Monaco.finished st = false ∧
  Monaco.posted st = [] ∧ Monaco.notified st = [].
Proof.
  intros Hcs. induction k as [|k IH]; intros Hk st.
  - unfold st. rewrite take_0. cbn. auto.
  - destruct (lookup_lt_is_Some_2 (chars P) k ltac:(lia)) as [c Hc].
    destruct (IH ltac:(lia)) as (Ht & Hf & Hpo & Hno).
    unfold st. rewrite (take_S_r _ _ _ Hc). unfold type_prompt.
    rewrite fmap_app, monaco_run_app. fold (type_prompt (take k (chars P)) t).
    set (sk := Monaco.run P Monaco.init (type_prompt (take k (chars P)) t)) in *.
    rewrite Forall_lookup in Hcs.
    destruct (monaco_type_char sk c t (Hcs k c Hc)) as (s1 & Hh & Ht1 & Hf1 & Hpo1 & Hno1).
    cbn [fmap list_fmap Monaco.run fold_left]. unfold Monaco.step. rewrite Hh.
    unfold Monaco.finishIfNeeded. rewrite Ht1, Ht, length_app, length_take.
    cbn [length].
    destruct (Nat.leb_spec (length (chars P)) (k `min` length (chars P) + 1)); [lia|].
    cbn. rewrite Ht1, Ht. repeat split; congruence.
Qed.

(** X5. Round trip in TypingMonaco, with the editor mounted: typing exactly
    the characters of a non-empty prompt builds one attempt, with an
    accuracy of 100 and the prompt's characters joined as its text. *)
Lemma monaco_roundtrip (t : Z) :
  chars P ≠ [] →
  Forall (λ c, String.length c = 1 ∨ c = NL) (chars P) →
  let st := Monaco.run P Monaco.init (type_prompt (chars P) t) in
  Monaco.finished st = true ∧
  ∃ a, accuracy a = JsNum.of_Z 100 ∧ rawText a = String.concat "" (chars P) ∧
       Monaco.posted st = (if autoSubmit P then [a] else []) ∧
       Monaco.notified st = (if has_callback P then [a] else []).
Proof.
  intros Hne Hcs st.
  assert (Hlen : 0 < length (chars P)) by (destruct (chars P); [contradiction | cbn; lia]).
  set (m := length (chars P) - 1).
  destruct (lookup_lt_is_Some_2 (chars P) m ltac:(lia)) as [c Hc].
  destruct (monaco_typing_prefix t m Hcs ltac:(lia)) as (Ht & Hf & Hpo & Hno).
  assert (Hall : chars P = take m (chars P) ++ [c]).
  { rewrite <- (take_S_r _ _ _ Hc). symmetry. apply take_ge. lia. }
  assert (Hev : type_prompt (chars P) t =
                type_prompt (take m (chars P)) t
                ++ [press (if String.eqb c NL then "Enter" else c) t]).
  { unfold type_prompt. rewrite Hall at 1. now rewrite fmap_app. }
  set (sk := Monaco.run P Monaco.init (type_prompt (take m (chars P)) t)) in *.
  rewrite Forall_lookup in Hcs.
  destruct (monaco_type_char sk c t (Hcs m c Hc)) as (s1 & Hh & Ht1 & Hf1 & Hpo1 & Hno1).
  assert (Hty : Monaco.typed s1 = chars P) by (rewrite Ht1, Ht; now symmetry).
  assert (Hst : st = Monaco.finishIfNeeded P t s1).
  { unfold st. rewrite Hev, monaco_run_app. fold sk.
    cbn [Monaco.run fold_left]. unfold Monaco.step. now rewrite Hh. }
  rewrite Hst. unfold Monaco.finishIfNeeded. rewrite Hty, Hf1, Hf, Nat.leb_refl.
  cbn [andb negb Monaco.finished Monaco.posted Monaco.notified].
  split; [reflexivity|].
  eexists. split; [|split; [|split; rewrite ?Hpo1, ?Hpo, ?Hno1, ?Hno; reflexivity]].
  - cbn [accuracy]. now apply monaco_accuracy_all_correct.
  - reflexivity.
Qed.

End MonacoFacts.

(** ** The leaderboard *)

Section ServerFacts.

Lemma before_ranks_above (a b : Server.Attempt) :
  Server.before a b ↔ Server.ranks_above a b.
Proof.
  unfold Server.before, Server.ranks_above, Server.compare.
  destruct (Z.eqb_spec (Server.wpm b - Server.wpm a) 0); lia.
Qed.

#[local] Instance before_total : Total Server.before.
Proof.
  intros a b. unfold Server.before, Server.compare.
  destruct (Z.eqb_spec (Server.wpm b - Server.wpm a) 0),
           (Z.eqb_spec (Server.wpm a - Server.wpm b) 0); lia.
Qed.

#[local] Instance before_transitive : Transitive Server.before.
Proof.
  intros a b c. rewrite !before_ranks_above. unfold Server.ranks_above. lia.
Qed.

Lemma StronglySorted_weaken {A} (R R' : relation A) (l : list A) :
  (∀ x y, R x y → R' x y) → StronglySorted R l → StronglySorted R' l.
Proof.
  intros HR. induction 1 as [|x l Hs IH Hx]; constructor; [exact IH|].
  eapply Forall_impl; [exact Hx|]. intros y. apply HR.
Qed.

Lemma insert_permutation (a : Server.Attempt) (l : list Server.Attempt) :
  Server.insert a l ≡ₚ a :: l.
Proof.
  induction l as [|b l IH]; [reflexivity|]. cbn.
  destruct (decide (Server.before a b)); [reflexivity|].
  rewrite IH. apply Permutation_swap.
Qed.

Lemma sort_permutation (l : list Server.Attempt) : Server.sort l ≡ₚ l.
Proof.
  induction l as [|a l IH]; [reflexivity|].
  cbn. rewrite insert_permutation. now rewrite IH.
Qed.

Lemma insert_sorted (a : Server.Attempt) (l : list Server.Attempt) :
  StronglySorted Server.before l → StronglySorted Server.before (Server.insert a l).
Proof.
  induction 1 as [|b l Hs IH Hb]; cbn; [repeat constructor|].
  destruct (decide (Server.before a b)) as [Hab|Hab].
  - constructor; [now constructor|]. constructor; [exact Hab|].
    eapply Forall_impl; [exact Hb|]. intros c Hbc. now transitivity b.
  - constructor; [exact IH|]. rewrite insert_permutation.
    constructor; [|exact Hb]. destruct (before_total a b); [contradiction | assumption].
Qed.

Lemma sort_ranked (l : list Server.Attempt) :
  StronglySorted Server.ranks_above (Server.sort l).
Proof.
  apply (StronglySorted_weaken Server.before).
  - intros x y. apply before_ranks_above.
  - induction l as [|a l IH]; [constructor|]. cbn. now apply insert_sorted.
Qed.

Lemma ties_compare (a b : Server.Attempt) :
  Server.ties a b = true ↔ Server.compare a b = 0%Z.
Proof.
  unfold Server.ties, Server.compare. rewrite andb_true_iff, !Z.eqb_eq.
  destruct (Z.eqb_spec (Server.wpm b - Server.wpm a) 0); lia.
Qed.

(** A stable sort keeps the attempts that tie with [x] in their order. *)
Lemma insert_ties (x a : Server.Attempt) (l : list Server.Attempt) :
  List.filter (Server.ties x) (Server.insert a l)
  = List.filter (Server.ties x) (a :: l).
Proof.
  induction l as [|b l IH]; [reflexivity|]. cbn [Server.insert].
  destruct (decide (Server.before a b)) as [Hab|Hab]; [reflexivity|].
  cbn [List.filter] in *. rewrite IH.
  destruct (Server.ties x a) eqn:Ea; [|reflexivity].
  destruct (Server.ties x b) eqn:Eb; [|reflexivity].
  exfalso. apply Hab. unfold Server.before.
  apply ties_compare in Ea, Eb. unfold Server.compare in *.
  destruct (Z.eqb_spec (Server.wpm a - Server.wpm x) 0),
           (Z.eqb_spec (Server.wpm b - Server.wpm x) 0),
           (Z.eqb_spec (Server.wpm b - Server.wpm a) 0); lia.
Qed.

Lemma sort_stable (x : Server.Attempt) (l : list Server.Attempt) :
  List.filter (Server.ties x) (Server.sort l) = List.filter (Server.ties x) l.
Proof.
  induction l as [|a l IH]; [reflexivity|].
  cbn [Server.sort foldr]. fold (Server.sort l). rewrite insert_ties.
  cbn [List.filter]. now rewrite IH.
Qed.

Lemma matches_problem (pid : string) (a : Server.Attempt) :
  pid ≠ "" → (Server.matches (Some pid) a = true ↔ Server.problemId a = pid).
Proof.
  intros Hne. unfold Server.matches.
  destruct (String.eqb_spec pid ""); [contradiction|].
  apply String.eqb_eq.
Qed.

End ServerFacts.

(** * Further properties of the code *)

(** ** Rounding: bounds that reach whole numbers *)

Section JsNumMore.
Import JsNum.
Local Open Scope Q_scope.

(** [rnd] on a positive rational, with its unit in the last place. *)
Lemma rnd_pos_exact (q : Q) :
  0 < q →
  let a := Qabs (Qred q) in
  let u := Z.max (ilog2 a - 52) (-1074) in
  let r := inject_Z (round_half_even (a / 2 ^ u)) * 2 ^ u in
  rnd q = if Qle_bool (2 ^ 1024) r then PosInf else Fin (Qred r).
Proof.
  intros Hq. unfold rnd. rewrite (proj1 (Qgt_alt q 0) Hq). reflexivity.
Qed.

Lemma round_half_even_le_int (x : Q) (k : Z) :
  x <= inject_Z k → (round_half_even x <= k)%Z.
Proof.
  intros H. destruct (round_half_even_near x) as [_ Hm].
  assert (Hlt : inject_Z (round_half_even x) < inject_Z (k + 1)).
  { rewrite inject_Z_plus. change (inject_Z 1) with 1. lra. }
  rewrite <- Zlt_Qlt in Hlt. lia.
Qed.

Lemma ilog2_lt (a : Q) (n : Z) : 0 < a → a < 2 ^ n → (ilog2 a < n)%Z.
Proof.
  intros Ha Hn. destruct (ilog2_spec a Ha) as [Hlo _].
  apply (Qpower_lt_compat_l_inv 2); [|reflexivity].
  eapply Qle_lt_trans; eassumption.
Qed.

(** Rounding does not step over an integer: a positive rational below
    [2 ^ 53] that is at most [n] rounds to a double that is at most [n]. *)
Lemma rnd_le_integer (q : Q) (n : Z) :
  0 < q → q <= inject_Z n → q < 2 ^ 53 →
  ∃ r, rnd q = Fin r ∧ 0 <= r ∧ r <= inject_Z n.
Proof.
  intros Hq Hn H53.
  assert (Hfin : ∃ r, rnd q = Fin r ∧ 0 <= r).
  { apply rnd_finite; [now apply Qlt_le_weak|].
    eapply Qlt_le_trans; [exact H53|]. apply two_pow_le. lia. }
  destruct Hfin as (r' & Hr' & Hr0).
  pose proof (rnd_pos_exact q Hq) as Hx. cbv zeta in Hx.
  assert (Ha : Qabs (Qred q) == q).
  { rewrite Qred_correct. apply Qabs_pos. now apply Qlt_le_weak. }
  set (a := Qabs (Qred q)) in *.
  assert (Ha0 : 0 < a) by now rewrite Ha.
  assert (He : (ilog2 a < 53)%Z) by (apply ilog2_lt; [exact Ha0 | now rewrite Ha]).
  set (u := Z.max (ilog2 a - 52) (-1074)) in *.
  assert (Hu : (u <= 0)%Z) by (unfold u; lia).
  pose proof (two_pow_pos u) as Hu0.
  assert (Hk : inject_Z (n * 2 ^ (- u)) * 2 ^ u == inject_Z n).
  { rewrite inject_Z_mult, two_pow_inject by lia.
    rewrite <- Qmult_assoc, <- Qpower_plus by discriminate.
    replace (- u + u)%Z with 0%Z by lia. change (2 ^ 0) with 1. ring. }
  set (k := (n * 2 ^ (- u))%Z) in *.
  assert (Hm : (round_half_even (a / 2 ^ u) <= k)%Z).
  { apply round_half_even_le_int. apply Qle_shift_div_r; [exact Hu0|].
    rewrite Hk, Ha. exact Hn. }
  set (m := round_half_even (a / 2 ^ u)) in *.
  assert (Hr : inject_Z m * 2 ^ u <= inject_Z n).
  { rewrite <- Hk. apply Qmult_le_compat_r; [|now apply Qlt_le_weak].
    now rewrite <- Zle_Qle. }
  rewrite Hr' in Hx.
  destruct (Qle_bool (2 ^ 1024) (inject_Z m * 2 ^ u)); [discriminate|].
  exists r'. split; [exact Hr'|]. split; [exact Hr0|].
  injection Hx as ->. now rewrite Qred_correct.
Qed.



(** The percentage [Math.round((correct / typedLen) * 100)] of a part of a
    count is an integer from 0 to 100. *)
Lemma percent_integer (c t : Z) :
  (0 <= c <= t)%Z → (1 <= t <= 2 ^ 53)%Z →
  ∃ m : Z, (0 <= m <= 100)%Z ∧
           Math_round (mul (div (of_Z c) (of_Z t)) (of_Z 100)) = of_Z m.
Proof.
  intros [Hc0 Hct] [Ht1 Ht2].
  assert (HT : 0 < inject_Z t).
  { change 0 with (inject_Z 0). rewrite <- Zlt_Qlt. lia. }
  unfold of_Z at 1 2. rewrite div_fin_pos by exact HT.
  destruct (Z.eq_dec c 0%Z) as [->|Hne].
  { exists 0%Z. split; [lia|]. rewrite (rnd_zero (inject_Z 0 / inject_Z t)).
    - reflexivity.
    - unfold Qdiv. change (inject_Z 0) with 0. ring. }
  assert (HC : 1 <= inject_Z c).
  { change 1 with (inject_Z 1). rewrite <- Zle_Qle. lia. }
  assert (HCT : inject_Z c <= inject_Z t) by now rewrite <- Zle_Qle.
  assert (HT2 : inject_Z t <= 9007199254740992).
  { change 9007199254740992 with (inject_Z (2 ^ 53)). now rewrite <- Zle_Qle. }
  assert (Hq0 : 0 < inject_Z c / inject_Z t).
  { apply Qlt_shift_div_l; [exact HT|]. lra. }
  assert (Hq1 : inject_Z c / inject_Z t <= inject_Z 1).
  { apply Qle_shift_div_r; [exact HT|]. change (inject_Z 1) with 1. lra. }
  assert (H53 : 9007199254740992 == 2 ^ 53) by reflexivity.
  destruct (rnd_le_integer _ 1%Z Hq0 Hq1) as (f & -> & Hf0 & Hf1).
  { eapply Qle_lt_trans; [exact Hq1|]. rewrite <- H53. reflexivity. }
  change (inject_Z 1) with 1 in Hf1.
  unfold of_Z, mul. change (inject_Z 100) with 100.
  destruct (Qle_lt_or_eq _ _ Hf0) as [Hfp|Hfz].
  - destruct (rnd_le_integer (f * 100) 100%Z) as (g & -> & Hg0 & Hg1).
    + lra.
    + change (inject_Z 100) with 100. lra.
    + rewrite <- H53. lra.
    + change (inject_Z 100) with 100 in Hg1.
      exists (Qfloor (g + (1 # 2))). split; [|reflexivity]. split.
      * change 0%Z with (Qfloor 0). apply Qfloor_resp_le. lra.
      * change 100%Z with (Qfloor (100 + (1 # 2))). apply Qfloor_resp_le. lra.
  - exists 0%Z. split; [lia|]. rewrite (rnd_zero (f * 100)); [reflexivity|].
    rewrite <- Hfz. ring.
Qed.

End JsNumMore.

(** ** [calcWPM] against the exact formula *)

Section JsNumClose.
Import JsNum.
Local Open Scope Q_scope.






End JsNumClose.



(** ** TypingFastCached: resets, Backspace and what is recorded *)

Import CachedView.

Section CachedSettled.
Variable P : Props.






Lemma fullReset_spans (st : State) : spans (fullReset st) = wipe <$> spans st.
Proof. reflexivity. Qed.





Lemma span_or_not (l : list (option Span)) (p : nat) :
  (∃ sp, l !! p = Some (Some sp)) ∨ (l !! p = None ∨ l !! p = Some None).
Proof. destruct (l !! p) as [[sp|]|]; eauto. Qed.









End CachedSettled.

Lemma string_length_app (a b : string) :
  String.length (a ++ b) = String.length a + String.length b.
Proof.
  induction a as [|c a IH]; [reflexivity|].
  change (S (String.length (a ++ b)) = S (String.length a + String.length b)).
  now rewrite IH.
Qed.

Lemma concat_empty_cons (a : string) (l : list string) :
  String.concat "" (a :: l) = (a ++ String.concat "" l)%string.
Proof.
  destruct l as [|b l]; simpl; [|reflexivity].
  induction a as [|c a IH]; [reflexivity|].
  change (String c a = String c (a ++ "")). now rewrite <- IH.
Qed.

Lemma typedStr_cons (s : option Span) (l : list (option Span)) :
  typedStr (s :: l) = (typed_text s ++ typedStr l)%string.
Proof. unfold typedStr. cbn [map]. apply concat_empty_cons. Qed.


Section CachedMetrics.
Variable P : Props.














End CachedMetrics.

Lemma concat_length_chars (l : list string) :
  Forall (λ k, String.length k = 1) l →
  String.length (String.concat "" l) = length l.
Proof.
  induction 1 as [|k l Hk _ IH]; [reflexivity|].
  rewrite concat_empty_cons, string_length_app, Hk, IH. reflexivity.
Qed.

(** Spans that carry, position by position, the keys [ks] judged against
    the characters [cs]: the text read back and the count of correct ones. *)
Lemma marked_text (cs ks : list string) (l : list (option Span)) :
  length ks = length cs → length l = length cs →
  (∀ i c k, cs !! i = Some c → ks !! i = Some k →
     l !! i = Some (Some {| typedChar := Some k; cls_correct := String.eqb k c;
                            cls_incorrect := negb (String.eqb k c) |})) →
  typedStr l = String.concat "" ks ∧
  count_correct l = Monaco.count_matches cs ks.
Proof.
  revert ks l. induction cs as [|c cs IH]; intros [|k ks] [|s l] Hk Hl H;
    try discriminate; [split; reflexivity|].
  pose proof (H 0 c k eq_refl eq_refl) as H0. cbn in H0. injection H0 as ->.
  destruct (IH ks l) as [IH1 IH2].
  - cbn in Hk. lia.
  - cbn in Hl. lia.
  - intros i c' k' Hc Hk'. apply (H (S i) c' k' Hc Hk').
  - split.
    + rewrite typedStr_cons, concat_empty_cons, IH1. reflexivity.
    + unfold count_correct in *. cbn [List.filter has_correct cls_correct].
      cbn [Monaco.count_matches]. rewrite <- IH2.
      destruct (String.eqb k c); reflexivity.
Qed.

Section CachedRecord.
Variable P : Props.

Lemma press_printable (k : string) (t : Z) :
  String.length k = 1 → is_printable (ev (press k t)) = true.
Proof. intros H. unfold is_printable, press. cbn. now rewrite H. Qed.

End CachedRecord.

Section CachedClock.
Variable P : Props.
Variable ok : Z → Prop.




End CachedClock.

Section CachedClockRun.
Variable P : Props.




End CachedClockRun.

(** ** TypingFastCached: the verdicts and the position *)

Section CachedBelow.
Variable P : Props.

Lemma count_at_most (f : option Span → bool) (l : list (option Span)) (k : nat) :
  (∀ i x, l !! i = Some x → f x = true → i < k) →
  length (List.filter f l) ≤ k.
Proof.
  revert k. induction l as [|a l IH]; intros k H; [cbn; lia|].
  cbn. destruct (f a) eqn:E.
  - pose proof (H 0 a eq_refl E) as H0.
    specialize (IH (k - 1)). cbn. 
    assert (length (List.filter f l) ≤ k - 1); [|lia].
    apply IH. intros i x Hx Hf. pose proof (H (S i) x Hx Hf). lia.
  - apply IH. intros i x Hx Hf. pose proof (H (S i) x Hx Hf). lia.
Qed.



End CachedBelow.

(** ** TypingFast *)

Section FastFacts.
Variable P : Props.

Lemma fast_init_lockstep : lockstep P (Fast.init P).
Proof.
  split.
  - cbn. apply length_fmap.
  - intros i Hi. exists blank. cbn. split; [|split; [discriminate | lia]].
    rewrite list_lookup_fmap.
    destruct (lookup_lt_is_Some_2 (chars P) i Hi) as [c Hc]. now rewrite Hc.
Qed.

(** X12. TypingFast keeps the position on the verdicts for every prompt,
    newlines included: after any key events from a fresh session there is
    one span per prompt character, the spans with a verdict are those below
    the position, and their number is the position as long as it is within
    the prompt. *)
Theorem fast_position_invariant (evs : list Input) :
  let st := run P (Fast.init P) evs in
  length (spans st) = length (chars P) ∧
  (∀ i, i < length (chars P) →
        (is_typed (default None (spans st !! i)) = true ↔ i < pos st)) ∧
  typed_count st = min (pos st) (length (chars P)) ∧
  (pos st ≤ length (chars P) → pos st = typed_count st).
Proof.
  intros st.
  assert (H : lockstep P st) by apply run_lockstep, fast_init_lockstep.
  pose proof (lockstep_count P st H) as Hc.
  destruct H as [Hlen H].
  split; [exact Hlen|]. split; [|split; [exact Hc | lia]].
  intros i Hi. destruct (H i Hi) as (sp & -> & Ht). exact Ht.
Qed.

End FastFacts.

(** ** TypingMonaco and TypingCanvas *)

Section ArrayVariants.
Variable P : Props.

(** Takes the branches of a handler apart. *)
Ltac branches :=
  repeat match goal with
         | |- context [if ?b then _ else _] => destruct b eqn:?
         | |- context [match ?l with [] => _ | _ :: _ => _ end] => destruct l eqn:?
         end.

Lemma monaco_handler_frame (st : Monaco.State) (i : Input) :
  key (ev i) ≠ "Escape" →
  let st' := fst (Monaco.handleKeyDown st i) in
  Monaco.finished st' = Monaco.finished st ∧
  Monaco.posted st' = Monaco.posted st ∧
  Monaco.notified st' = Monaco.notified st.
Proof.
  intros Hesc. unfold Monaco.handleKeyDown. cbv beta zeta.
  destruct (String.eqb (key (ev i)) "Escape") eqn:E;
    [apply String.eqb_eq in E; contradiction|].
  branches; cbn; auto.
Qed.

Lemma canvas_handler_frame (st : Monaco.State) (i : Input) :
  key (ev i) ≠ "Escape" →
  let st' := fst (Canvas.handleKeyDown st i) in
  Monaco.finished st' = Monaco.finished st ∧
  Monaco.posted st' = Monaco.posted st ∧
  Monaco.notified st' = Monaco.notified st.
Proof.
  intros Hesc. unfold Canvas.handleKeyDown. cbv beta zeta.
  destruct (String.eqb (key (ev i)) "Escape") eqn:E;
    [apply String.eqb_eq in E; contradiction|].
  branches; cbn; auto.
Qed.

(** What a session of the array variants may still send: one attempt
    until it is finished. *)
Lemma array_finish_once (now : Z) (st : Monaco.State) :
  let st' := Monaco.finishIfNeeded P now st in
  let left s := if Monaco.finished s then 0 else 1 in
  length (Monaco.posted st') + left st' ≤ length (Monaco.posted st) + left st ∧
  length (Monaco.notified st') + left st' ≤ length (Monaco.notified st) + left st.
Proof.
  unfold Monaco.finishIfNeeded. cbv beta zeta.
  destruct (Monaco.finished st) eqn:Hf.
  - rewrite andb_false_r. rewrite Hf. lia.
  - destruct (length (chars P) <=? length (Monaco.typed st)); cbn.
    + destruct (autoSubmit P), (has_callback P); cbn; lia.
    + rewrite Hf. lia.
Qed.

Lemma monaco_step_once (st : Monaco.State) (i : Input) :
  key (ev i) ≠ "Escape" →
  let st' := Monaco.step P st i in
  let left s := if Monaco.finished s then 0 else 1 in
  length (Monaco.posted st') + left st' ≤ length (Monaco.posted st) + left st ∧
  length (Monaco.notified st') + left st' ≤ length (Monaco.notified st) + left st.
Proof.
  intros Hesc. cbv beta zeta. unfold Monaco.step.
  destruct (monaco_handler_frame st i Hesc) as (Hf & Hp & Hn).
  destruct (Monaco.handleKeyDown st i) as [s changed]. cbn in Hf, Hp, Hn.
  destruct changed.
  - pose proof (array_finish_once (now_finish i) s) as H. cbv beta zeta in H.
    rewrite Hf, Hp, Hn in H. exact H.
  - rewrite Hf, Hp, Hn. lia.
Qed.

Lemma canvas_step_once (st : Monaco.State) (i : Input) :
  key (ev i) ≠ "Escape" →
  let st' := Canvas.step P st i in
  let left s := if Monaco.finished s then 0 else 1 in
  length (Monaco.posted st') + left st' ≤ length (Monaco.posted st) + left st ∧
  length (Monaco.notified st') + left st' ≤ length (Monaco.notified st) + left st.
Proof.
  intros Hesc. cbv beta zeta. unfold Canvas.step.
  destruct (canvas_handler_frame st i Hesc) as (Hf & Hp & Hn).
  destruct (Canvas.handleKeyDown st i) as [s changed]. cbn in Hf, Hp, Hn.
  destruct (changed && negb (ts_unset (Monaco.startTs s)) && negb (Monaco.finished s)).
  - pose proof (array_finish_once (now_finish i) s) as H. cbv beta zeta in H.
    rewrite Hf, Hp, Hn in H. exact H.
  - rewrite Hf, Hp, Hn. lia.
Qed.

(** X13. TypingMonaco and TypingCanvas complete a session at most once.  Over
    any key events without Escape, each of them posts at most one attempt
    and calls the callback at most once, and none at all when the session
    was finished already. *)
Theorem array_completion_at_most_once (st : Monaco.State) (evs : list Input) :
  Forall (λ i, key (ev i) ≠ "Escape") evs →
  let left := if Monaco.finished st then 0 else 1 in
  (length (Monaco.posted (Monaco.run P st evs)) ≤ length (Monaco.posted st) + left ∧
   length (Monaco.notified (Monaco.run P st evs)) ≤ length (Monaco.notified st) + left) ∧
  (length (Monaco.posted (Canvas.run P st evs)) ≤ length (Monaco.posted st) + left ∧
   length (Monaco.notified (Canvas.run P st evs)) ≤ length (Monaco.notified st) + left).
Proof.
  intros Hevs. cbv beta zeta. split.
  - revert st. induction Hevs as [|i evs Hi _ IH]; intros st; [cbn; lia|].
    change (Monaco.run P st (i :: evs)) with (Monaco.run P (Monaco.step P st i) evs).
    pose proof (monaco_step_once st i Hi) as H. cbv beta zeta in H.
    specialize (IH (Monaco.step P st i)).
    destruct (Monaco.finished (Monaco.step P st i)), (Monaco.finished st); lia.
  - revert st. induction Hevs as [|i evs Hi _ IH]; intros st; [cbn; lia|].
    change (Canvas.run P st (i :: evs)) with (Canvas.run P (Canvas.step P st i) evs).
    pose proof (canvas_step_once st i Hi) as H. cbv beta zeta in H.
    specialize (IH (Canvas.step P st i)).
    destruct (Monaco.finished (Canvas.step P st i)), (Monaco.finished st); lia.
Qed.

Lemma take_snoc_last (l : list string) (x : string) :
  take (length (l ++ [x]) - 1) (l ++ [x]) = l.
Proof.
  rewrite length_app. cbn. replace (length l + 1 - 1) with (length l) by lia.
  now rewrite take_app_length.
Qed.

Lemma backspace_not_printable (e : KeyEvent) :
  key e = "Backspace" → is_paste e = false ∧ is_printable e = false.
Proof.
  intros H. unfold is_paste, is_printable. rewrite H. cbn.
  now rewrite andb_false_r.
Qed.

Lemma enter_not_printable (e : KeyEvent) :
  key e = "Enter" → is_paste e = false ∧ is_printable e = false.
Proof.
  intros H. unfold is_paste, is_printable. rewrite H. cbn.
  now rewrite andb_false_r.
Qed.

Lemma printable_not_paste (e : KeyEvent) : is_printable e = true → is_paste e = false.
Proof.
  unfold is_printable, is_paste. intros H.
  apply andb_prop in H as [H Hm]. apply andb_prop in H as [_ Hc].
  destruct (ctrlKey e), (metaKey e); try discriminate. reflexivity.
Qed.

(** The typed array after a character key or Enter, in either variant. *)
Lemma monaco_step_typed (st : Monaco.State) (i : Input) :
  is_printable (ev i) = true ∨ key (ev i) = "Enter" →
  ∃ c, Monaco.typed (Monaco.step P st i) = Monaco.typed st ++ [c].
Proof.
  intros Hi. unfold Monaco.step, Monaco.handleKeyDown. cbv beta zeta.
  destruct Hi as [Hi|Hi].
  - rewrite (printable_not_paste _ Hi), Hi.
    exists (key (ev i)). rewrite monaco_finishIfNeeded_typed.
    now destruct (ts_unset (Monaco.startTs st)).
  - destruct (enter_not_printable _ Hi) as [-> ->]. rewrite Hi. cbn.
    exists NL. rewrite monaco_finishIfNeeded_typed.
    now destruct (ts_unset (Monaco.startTs st)).
Qed.

Lemma monaco_step_backspace (st : Monaco.State) (b : Input) (l : list string) (c : string) :
  key (ev b) = "Backspace" → Monaco.typed st = l ++ [c] →
  Monaco.typed (Monaco.step P st b) = l.
Proof.
  intros Hb Hl. unfold Monaco.step, Monaco.handleKeyDown. cbv beta zeta.
  destruct (backspace_not_printable _ Hb) as [-> ->]. rewrite Hb. cbn.
  assert (H : ∀ s, Monaco.typed s = l ++ [c] →
            Monaco.typed
              (let '(st', changed) :=
                 match Monaco.typed s with
                 | [] => (s, false)
                 | _ :: _ =>
                     (Monaco.set_typed
                        (take (length (Monaco.typed s) - 1) (Monaco.typed s)) s, true)
                 end in
               if changed then Monaco.finishIfNeeded P (now_finish b) st' else st') = l).
  { intros s Hs. rewrite Hs.
    destruct (l ++ [c]) eqn:E; [now destruct l|]. rewrite <- E.
    rewrite monaco_finishIfNeeded_typed. cbn. apply take_snoc_last. }
  destruct (ts_unset (Monaco.startTs st)); apply H; exact Hl.
Qed.

Lemma effect_typed (b : bool) (now : Z) (s : Monaco.State) :
  Monaco.typed (if b then Monaco.finishIfNeeded P now s else s) = Monaco.typed s.
Proof. destruct b; [apply monaco_finishIfNeeded_typed | reflexivity]. Qed.

Lemma canvas_step_typed (st : Monaco.State) (i : Input) :
  is_printable (ev i) = true ∨ key (ev i) = "Enter" →
  ∃ c, Monaco.typed (Canvas.step P st i) = Monaco.typed st ++ [c].
Proof.
  intros Hi. unfold Canvas.step, Canvas.handleKeyDown. cbv beta zeta.
  destruct Hi as [Hi|Hi].
  - rewrite (printable_not_paste _ Hi), Hi.
    exists (if String.eqb (key (ev i)) Canvas.CR then NL else key (ev i)).
    destruct (ts_unset (Monaco.startTs st)); cbv beta iota;
      rewrite effect_typed; reflexivity.
  - destruct (enter_not_printable _ Hi) as [-> ->]. rewrite Hi. cbn.
    exists NL.
    destruct (ts_unset (Monaco.startTs st)); cbv beta iota;
      rewrite effect_typed; reflexivity.
Qed.

Lemma canvas_step_backspace (st : Monaco.State) (b : Input) (l : list string) (c : string) :
  key (ev b) = "Backspace" → Monaco.typed st = l ++ [c] →
  Monaco.typed (Canvas.step P st b) = l.
Proof.
  intros Hb Hl. unfold Canvas.step, Canvas.handleKeyDown. cbv beta zeta.
  destruct (backspace_not_printable _ Hb) as [-> ->]. rewrite Hb. cbn.
  assert (H : ∀ s, Monaco.typed s = l ++ [c] →
            Monaco.typed
              (let '(st', changed) :=
                 match Monaco.typed s with
                 | [] => (s, false)
                 | _ :: _ =>
                     (Monaco.set_typed
                        (take (length (Monaco.typed s) - 1) (Monaco.typed s)) s, true)
                 end in
               if changed && negb (ts_unset (Monaco.startTs st')) && negb (Monaco.finished st')
               then Monaco.finishIfNeeded P (now_finish b) st' else st') = l).
  { intros s Hs. rewrite Hs.
    destruct (l ++ [c]) eqn:E; [now destruct l|]. rewrite <- E.
    rewrite effect_typed. cbn. apply take_snoc_last. }
  destruct (ts_unset (Monaco.startTs st)); apply H; exact Hl.
Qed.

(** X14. Backspace takes back the last character in TypingMonaco and
    TypingCanvas.  A character key or Enter followed by Backspace leaves
    the typed characters as they were, whatever the state, finished or
    not. *)
Theorem array_backspace_undoes_keystroke (st : Monaco.State) (i b : Input) :
  is_printable (ev i) = true ∨ key (ev i) = "Enter" →
  key (ev b) = "Backspace" →
  Monaco.typed (Monaco.step P (Monaco.step P st i) b) = Monaco.typed st ∧
  Monaco.typed (Canvas.step P (Canvas.step P st i) b) = Monaco.typed st.
Proof.
  intros Hi Hb. split.
  - destruct (monaco_step_typed st i Hi) as [c Hc].
    exact (monaco_step_backspace _ b _ c Hb Hc).
  - destruct (canvas_step_typed st i Hi) as [c Hc].
    exact (canvas_step_backspace _ b _ c Hb Hc).
Qed.

End ArrayVariants.

Lemma count_matches_le (expectedArr typedArr : list string) :
  Monaco.count_matches expectedArr typedArr ≤ min (length expectedArr) (length typedArr).
Proof.
  revert expectedArr. induction typedArr as [|g ts IH]; intros [|e es]; cbn; try lia.
  specialize (IH es). destruct (String.eqb g e); lia.
Qed.

(** X15. The accuracy of the array variants is a whole percentage.  For
    typed characters up to 2^53 in number, [calcAccuracy] returns a whole
    number from 0 to 100, whatever was expected and however far the typing
    overshoots the prompt. *)
Theorem array_accuracy_percentage (expectedArr typedArr : list string) :
  (Z.of_nat (length typedArr) <= 2 ^ 53)%Z →
  ∃ m : Z, (0 <= m <= 100)%Z ∧
           Monaco.calcAccuracy expectedArr typedArr = JsNum.of_Z m.
Proof.
  intros Hlen. unfold Monaco.calcAccuracy.
  destruct (length typedArr =? 0) eqn:E.
  - exists 100%Z. split; [lia | reflexivity].
  - apply Nat.eqb_neq in E.
    pose proof (count_matches_le expectedArr typedArr).
    apply percent_integer; lia.
Qed.

(** ** TypingMonaco: positions and decorations *)

Section EditorFacts.
Import Editor.

Lemma split_lines_nonempty (s : string) : 1 ≤ length (split_lines s).
Proof.
  induction s as [|c s IH]; cbn; [lia|].
  destruct (Ascii.eqb c "010"); cbn; [lia|].
  destruct (split_lines s); cbn in *; lia.
Qed.

Lemma last_cons_nonempty {A} (x d : A) (l : list A) :
  1 ≤ length l → List.last (x :: l) d = List.last l d.
Proof. destruct l; cbn; [lia | reflexivity]. Qed.

(** What [split] says about a text is what a walk over it finds: the
    number of lines, and the length of the last one. *)
Lemma split_walk (s : string) (l0 c0 : nat) :
  walk s {| lineNumber := l0; column := c0 |} =
  {| lineNumber := l0 + length (split_lines s) - 1;
     column := (if length (split_lines s) =? 1 then c0 else 1)
               + String.length (List.last (split_lines s) EmptyString) |}.
Proof.
  revert l0 c0. induction s as [|c s IH]; intros l0 c0.
  - cbn. f_equal; lia.
  - cbn [walk split_lines]. unfold advance. cbn [lineNumber column].
    pose proof (split_lines_nonempty s) as Hne.
    destruct (Ascii.eqb c "010").
    + rewrite IH. rewrite last_cons_nonempty by exact Hne. cbn [length].
      replace (S (length (split_lines s)) =? 1) with false
        by (symmetry; apply Nat.eqb_neq; lia).
      f_equal; [lia|]. destruct (length (split_lines s) =? 1); lia.
    + rewrite IH. destruct (split_lines s) as [|l ls]; [cbn in Hne; lia|].
      cbn [length]. f_equal.
      destruct ls as [|l' ls]; [cbn; lia|].
      rewrite !last_cons_nonempty by (cbn; lia). cbn. reflexivity.
Qed.

Lemma indexToPosition_walk (text : string) (idx : nat) :
  indexToPosition text idx =
  walk (substring 0 idx text) {| lineNumber := 1; column := 1 |}.
Proof.
  rewrite split_walk. unfold indexToPosition. cbv zeta.
  pose proof (split_lines_nonempty (substring 0 idx text)).
  f_equal; [lia|]. destruct (_ =? 1); lia.
Qed.

Lemma walk_app (a b : string) (p : Position) :
  walk (a ++ b) p = walk b (walk a p).
Proof.
  revert p. induction a as [|c a IH]; intros p; [reflexivity|].
  change (String c a ++ b)%string with (String c (a ++ b)). cbn [walk]. apply IH.
Qed.

Lemma substring_succ (text : string) (idx : nat) (c : ascii) :
  get idx text = Some c →
  substring 0 (S idx) text = (substring 0 idx text ++ String c EmptyString)%string.
Proof.
  revert idx. induction text as [|a text IH]; intros idx H; [discriminate|].
  destruct idx as [|idx].
  - cbn in H. injection H as ->. cbn. now destruct text.
  - cbn in H. change (substring 0 (S (S idx)) (String a text))
      with (String a (substring 0 (S idx) text)).
    rewrite (IH idx H). reflexivity.
Qed.

Lemma substring_all (text : string) (idx : nat) :
  String.length text ≤ idx → substring 0 idx text = text.
Proof.
  revert idx. induction text as [|a text IH]; intros idx H.
  - now destruct idx.
  - destruct idx as [|idx]; [cbn in H; lia|].
    change (substring 0 (S idx) (String a text)) with (String a (substring 0 idx text)).
    rewrite IH; [reflexivity | cbn in H; lia].
Qed.

Lemma get_is_Some (text : string) (idx : nat) :
  idx < String.length text → ∃ c, get idx text = Some c.
Proof.
  revert idx. induction text as [|a text IH]; intros idx H; [cbn in H; lia|].
  destruct idx as [|idx]; [now exists a|]. cbn. apply IH. cbn in H. lia.
Qed.

Lemma index_advance (text : string) (idx : nat) (c : ascii) :
  get idx text = Some c →
  indexToPosition text (idx + 1) = advance (indexToPosition text idx) c.
Proof.
  intros H. rewrite !indexToPosition_walk. replace (idx + 1) with (S idx) by lia.
  rewrite (substring_succ _ _ _ H), walk_app. reflexivity.
Qed.

Lemma index_beyond (text : string) (idx : nat) :
  String.length text ≤ idx →
  indexToPosition text idx = indexToPosition text (String.length text).
Proof.
  intros H. unfold indexToPosition. now rewrite !substring_all by lia.
Qed.

Lemma position_from_one (text : string) (idx : nat) :
  1 ≤ lineNumber (indexToPosition text idx) ∧ 1 ≤ column (indexToPosition text idx).
Proof.
  unfold indexToPosition. cbn. split; [apply split_lines_nonempty | lia].
Qed.

Lemma advance_precedes (p : Position) (c : ascii) : precedes p (advance p c).
Proof.
  unfold precedes, advance. destruct (Ascii.eqb c "010"); cbn; lia.
Qed.

Lemma precedes_trans (p q r : Position) : precedes p q → precedes q r → precedes p r.
Proof. unfold precedes. lia. Qed.

(** X16. The range of a prompt character.  Positions start at line 1, column 1;
    the range [rangeForIndex] builds for a character runs from its position
    to the next column of the same line, or, for a newline, to column 1 of
    the next line; past the end of the text the range is empty and sits at
    the end. *)
Theorem range_of_character (text : string) (idx : nat) :
  indexToPosition text 0 = {| lineNumber := 1; column := 1 |} ∧
  (∀ c, get idx text = Some c →
        let p := indexToPosition text idx in
        1 ≤ lineNumber p ∧ 1 ≤ column p ∧
        rangeForIndex text idx = Range_of p (advance p c)) ∧
  (String.length text ≤ idx →
   let e := indexToPosition text (String.length text) in
   rangeForIndex text idx = Range_of e e).
Proof.
  split; [|split].
  - unfold indexToPosition. now destruct text.
  - intros c H p. destruct (position_from_one text idx) as [H1 H2].
    split; [exact H1|]. split; [exact H2|].
    unfold rangeForIndex. cbv zeta. now rewrite (index_advance _ _ _ H).
  - intros H e. unfold rangeForIndex. cbv zeta.
    now rewrite (index_beyond text idx), (index_beyond text (idx + 1)) by lia.
Qed.

(** X17. Positions follow the text.  Of two indices up to the length of the
    text, the smaller one gets the earlier position, by line and then by
    column; so no two of them share a position. *)
Theorem positions_increase (text : string) (i j : nat) :
  i < j → j ≤ String.length text →
  precedes (indexToPosition text i) (indexToPosition text j) ∧
  indexToPosition text i ≠ indexToPosition text j.
Proof.
  intros Hij Hj.
  assert (H : precedes (indexToPosition text i) (indexToPosition text j)).
  { induction j as [|j IH]; [lia|].
    destruct (get_is_Some text j) as [c Hc]; [lia|].
    replace (S j) with (j + 1) by lia. rewrite (index_advance _ _ _ Hc).
    destruct (decide (i = j)) as [->|Hne]; [apply advance_precedes|].
    eapply precedes_trans; [apply IH; lia | apply advance_precedes]. }
  split; [exact H|]. intros E. rewrite E in H. unfold precedes in H. lia.
Qed.

Lemma spread_length (text : string) : length (spread text) = String.length text.
Proof. induction text as [|c s IH]; cbn; [reflexivity | now rewrite IH]. Qed.

Lemma correct_decorations (text : string) (chars typed : list string) (k : nat) :
  length (List.filter is_correct_decoration
            (imap (λ i, char_decoration text chars (k + i)) typed))
  = Monaco.count_matches (drop k chars) typed.
Proof.
  revert k. induction typed as [|got ts IH]; intros k.
  - cbn. now destruct (drop k chars).
  - rewrite imap_cons. cbn [List.filter].
    rewrite (imap_ext _ (λ i, char_decoration text chars (S k + i))); cycle 1.
    { intros i x _. cbn. f_equal. lia. }
    unfold is_correct_decoration at 1. cbn [className char_decoration].
    replace (k + 0) with k by lia.
    destruct (chars !! k) as [e|] eqn:Hk.
    + rewrite (drop_S _ _ _ Hk). cbn [Monaco.count_matches].
      rewrite <- IH. destruct (String.eqb got e); reflexivity.
    + rewrite IH. rewrite !drop_ge by (apply lookup_ge_None in Hk; lia).
      now destruct ts.
Qed.

(** X18. The decorations and the score agree.  [updateDecorations] builds one
    decoration per typed character and, until the session is finished, one
    caret; the characters it marks correct are as many as [calcAccuracy]
    counts; and the caret covers the next prompt character while one is
    left, and is an empty range at the end of the text after that. *)
Theorem decorations_match_score (text : string) (typed : list string) (fin : bool) :
  let decs := updateDecorations text typed fin in
  length decs = length typed + (if fin then 0 else 1) ∧
  length (List.filter is_correct_decoration decs)
    = Monaco.count_matches (spread text) typed ∧
  (fin = false →
   ∃ caret, decs !! length typed = Some caret ∧ className caret = mt_caret ∧
     range caret =
       if decide (length typed < String.length text)
       then rangeForIndex text (length typed)
       else let e := indexToPosition text (String.length text) in Range_of e e).
Proof.
  intros decs. subst decs. unfold updateDecorations. cbv zeta.
  split; [|split].
  - rewrite length_app, length_imap. now destruct fin.
  - rewrite List.filter_app.
    pose proof (correct_decorations text (spread text) typed 0) as H.
    rewrite drop_0 in H.
    change (imap (char_decoration text (spread text)) typed)
      with (imap (λ i, char_decoration text (spread text) (0 + i)) typed).
    rewrite length_app, H.
    destruct fin; cbn; lia.
  - intros ->. exists (caret_decoration text (spread text) typed).
    split; [|split]; [| reflexivity |].
    + rewrite lookup_app_r by (rewrite length_imap; lia).
      rewrite length_imap, Nat.sub_diag. reflexivity.
    + cbn [range caret_decoration]. rewrite spread_length.
      destruct (decide (length typed < String.length text)) as [Hlt|Hge].
      * unfold rangeForIndex. cbv zeta. now replace (_ `min` _) with (length typed + 1) by lia.
      * cbv zeta. replace (_ `min` _) with (String.length text) by lia.
        now rewrite (index_beyond text (length typed)) by lia.
Qed.

End EditorFacts.

(** ** TypingCanvas and TypingTest *)

Section CanvasFacts.
Variable P : Props.


End CanvasFacts.

Section CanvasSpans.
Import Canvas.

Lemma spans_cursor (typed chars : list string) (k : nat) :
  length (List.filter cursor (imap (λ idx c, renderCharSpan typed c (k + idx)) chars))
  = if decide (k ≤ length typed < k + length chars) then 1 else 0.
Proof.
  revert k. induction chars as [|c cs IH]; intros k.
  - cbn. destruct (decide _); [lia | reflexivity].
  - rewrite imap_cons. cbn [List.filter].
    rewrite (imap_ext _ (λ idx c, renderCharSpan typed c (S k + idx))); cycle 1.
    { intros idx x _. cbn. f_equal. lia. }
    specialize (IH (S k)). cbn [cursor renderCharSpan length].
    replace (k + 0) with k by lia.
    destruct (k =? length typed) eqn:E.
    + apply Nat.eqb_eq in E. cbn [length]. rewrite IH.
      destruct (decide (S k ≤ _ < _)), (decide (k ≤ _ < _)); lia.
    + apply Nat.eqb_neq in E. rewrite IH.
      destruct (decide (S k ≤ _ < _)), (decide (k ≤ _ < _)); lia.
Qed.

Lemma spans_verdict (typed chars : list string) (k : nat) :
  length (List.filter has_verdict (imap (λ idx c, renderCharSpan typed c (k + idx)) chars))
  = min (k + length chars) (length typed) - min k (length typed).
Proof.
  revert k. induction chars as [|c cs IH]; intros k.
  - cbn. lia.
  - rewrite imap_cons. cbn [List.filter].
    rewrite (imap_ext _ (λ idx c, renderCharSpan typed c (S k + idx))); cycle 1.
    { intros idx x _. cbn. f_equal. lia. }
    specialize (IH (S k)). unfold has_verdict at 1. cbn [verdict renderCharSpan length].
    replace (k + 0) with k by lia.
    destruct (k <? length typed) eqn:E.
    + apply Nat.ltb_lt in E. cbn [length]. rewrite IH. lia.
    + apply Nat.ltb_ge in E. rewrite IH. lia.
Qed.

Lemma spans_correct (typed chars : list string) (k : nat) :
  length (List.filter is_correct (imap (λ idx c, renderCharSpan typed c (k + idx)) chars))
  = Monaco.count_matches chars (drop k typed).
Proof.
  revert k. induction chars as [|c cs IH]; intros k.
  - cbn. now destruct (drop k typed).
  - rewrite imap_cons. cbn [List.filter].
    rewrite (imap_ext _ (λ idx c, renderCharSpan typed c (S k + idx))); cycle 1.
    { intros idx x _. cbn. f_equal. lia. }
    specialize (IH (S k)). unfold is_correct at 1. cbn [verdict renderCharSpan].
    replace (k + 0) with k by lia.
    destruct (typed !! k) as [t|] eqn:Hk.
    + rewrite (drop_S _ _ _ Hk). cbn [Monaco.count_matches].
      replace (k <? length typed) with true
        by (symmetry; apply Nat.ltb_lt; apply lookup_lt_is_Some; eauto).
      rewrite <- IH. destruct (String.eqb t c); reflexivity.
    + assert (Hge : length typed ≤ k) by now apply lookup_ge_None.
      replace (k <? length typed) with false by (symmetry; apply Nat.ltb_ge; lia).
      rewrite IH, !drop_ge by lia. now destruct cs.
Qed.

(** X20. What TypingCanvas renders.  Whatever was typed, the prompt area
    shows exactly one cursor; the characters with a verdict are those
    behind the caret, as many as were typed but no more than the prompt
    has; and the characters shown correct are as many as [calcAccuracy]
    counts. *)
Theorem canvas_prompt_spans (chars typed : list string) :
  let spans := prompt_spans chars typed in
  length (List.filter cursor spans) = 1 ∧
  length (List.filter has_verdict spans) = min (length typed) (length chars) ∧
  length (List.filter is_correct spans) = Monaco.count_matches chars typed.
Proof.
  intros spans. subst spans. unfold prompt_spans.
  rewrite !List.filter_app, !length_app.
  pose proof (spans_cursor typed chars 0) as H1.
  pose proof (spans_verdict typed chars 0) as H2.
  pose proof (spans_correct typed chars 0) as H3.
  rewrite drop_0 in H3.
  change (imap (λ idx c, renderCharSpan typed c idx) chars)
    with (imap (λ idx c, renderCharSpan typed c (0 + idx)) chars).
  rewrite H1, H2, H3.
  destruct (length chars <=? length typed) eqn:E.
  - apply Nat.leb_le in E. cbn. destruct (decide _); lia.
  - apply Nat.leb_gt in E. cbn. destruct (decide _); lia.
Qed.

End CanvasSpans.

Section TypingTestFacts.
Import TypingTest.

Lemma drop_last_snoc (l : list string) (x : string) : drop_last (l ++ [x]) = l.
Proof. unfold drop_last. apply take_snoc_last. Qed.

Lemma drop_last_length (l : list string) : length (drop_last l) = length l - 1.
Proof. unfold drop_last. rewrite length_take. lia. Qed.

(** X21. The sketch keeps its index on the typed characters.  After any keys
    and restarts [currentIndex] is the number of typed characters, and a
    one-character key followed by Backspace leaves the state as it was. *)
Theorem typing_test_index (acts : list Action) (st : State) (e b : KeyEvent) :
  currentIndex (fold_left act acts init) = length (typed (fold_left act acts init)) ∧
  (String.length (key e) = 1 → key b = "Backspace" →
   handleKeyDown (handleKeyDown st e) b = st).
Proof.
  split.
  - assert (H : ∀ s, currentIndex s = length (typed s) →
                     currentIndex (fold_left act acts s) = length (typed (fold_left act acts s))).
    { induction acts as [|a acts IH]; intros s Hs; [exact Hs|].
      cbn [fold_left]. apply IH. destruct a as [k|]; [|reflexivity].
      unfold act, handleKeyDown.
      destruct (String.length (key k) =? 1).
      - cbn. rewrite length_app. cbn. lia.
      - destruct (String.eqb (key k) "Backspace" && (0 <? currentIndex s)); [|exact Hs].
        cbn. rewrite drop_last_length. lia. }
    now apply H.
  - intros He Hb.
    assert (H1 : handleKeyDown st e =
                 {| typed := typed st ++ [key e]; currentIndex := currentIndex st + 1 |}).
    { unfold handleKeyDown. now rewrite He. }
    assert (H2 : ∀ s, 0 < currentIndex s →
                 handleKeyDown s b =
                 {| typed := drop_last (typed s); currentIndex := currentIndex s - 1 |}).
    { intros s Hs. unfold handleKeyDown. rewrite Hb.
      replace (0 <? currentIndex s) with true by (symmetry; apply Nat.ltb_lt; lia).
      reflexivity. }
    rewrite H1, H2 by (cbn; lia). cbn [typed currentIndex].
    rewrite drop_last_snoc. destruct st as [t n]. cbn. f_equal. lia.
Qed.

End TypingTestFacts.

(** ** The server's store *)

Section ApiFacts.
Import Api.

Lemma or_else_truthy (s : option string) (d : string) : d ≠ "" → or_else s d ≠ "".
Proof.
  intros Hd. unfold or_else. destruct s as [v|]; [|exact Hd].
  destruct (String.eqb v "") eqn:E; [exact Hd|]. now apply String.eqb_neq.
Qed.

(** One post: the store keeps what it had, and takes at most one attempt
    more, which names a problem and a user and claims at most 300. *)
Lemma post_attempt_store (db : list Server.Attempt) (req : option Body)
    (fresh : string) (now : Z) :
  let db' := snd (post_attempt db req fresh now) in
  db' = db ∨
  ∃ a, db' = db ++ [a] ∧ Server.problemId a ≠ "" ∧ Server.user a ≠ "" ∧
       (Server.wpm a <= 300)%Z.
Proof.
  unfold post_attempt. destruct req as [b|]; [|now left].
  destruct (b_problemId b) as [pid|]; [|now left].
  destruct (String.eqb pid "") eqn:Epid; [now left|].
  destruct (300 <? b_wpm b)%Z eqn:Ew; [now left|].
  right. eexists. split; [reflexivity|]. cbn.
  split; [now apply String.eqb_neq|]. split; [now apply or_else_truthy|].
  now apply Z.ltb_ge.
Qed.

(** X22. What the store accepts.  Posts only append: after any sequence of
    posts the store begins with what it held, has grown by at most one
    attempt per post, and every attempt a post added names a problem and a
    user and claims at most 300 words per minute. *)
Theorem store_admits_plausible_attempts (db : list Server.Attempt) (reqs : list Request) :
  ∃ added,
    serve db reqs = db ++ added ∧ length added ≤ length reqs ∧
    Forall (λ a, Server.problemId a ≠ "" ∧ Server.user a ≠ "" ∧
                 (Server.wpm a <= 300)%Z) added.
Proof.
  revert db. induction reqs as [|r reqs IH]; intros db.
  - exists []. cbn. rewrite app_nil_r. repeat split; [lia | constructor].
  - change (serve db (r :: reqs))
      with (serve (snd (post_attempt db (body r) (fresh_id r) (clock r))) reqs).
    destruct (post_attempt_store db (body r) (fresh_id r) (clock r))
      as [->|(a & -> & Ha)].
    + destruct (IH db) as (added & -> & Hl & Hok).
      exists added. repeat split; [cbn; lia | exact Hok].
    + destruct (IH (db ++ [a])) as (added & -> & Hl & Hok).
      exists (a :: added). rewrite <- app_assoc. repeat split; [cbn; lia|].
      constructor; assumption.
Qed.

Lemma filter_matches_all (q : option string) (db : list Server.Attempt) :
  q = None ∨ q = Some "" → List.filter (Server.matches q) db = db.
Proof.
  intros Hq. induction db as [|a db IH]; [reflexivity|].
  cbn. rewrite IH. now destruct Hq as [-> | ->].
Qed.

Lemma ranks_above_refl (a : Server.Attempt) : Server.ranks_above a a.
Proof. right. split; [reflexivity | lia]. Qed.

Lemma sorted_head_ranks (l : list Server.Attempt) (h : Server.Attempt) :
  StronglySorted Server.ranks_above l → head l = Some h →
  Forall (Server.ranks_above h) l.
Proof.
  intros Hs Hh. destruct l as [|x l]; [discriminate|]. injection Hh as ->.
  apply StronglySorted_inv in Hs as [_ Hall].
  constructor; [apply ranks_above_refl | exact Hall].
Qed.

Lemma head_take {A} (n : nat) (l : list A) : 0 < n → head (take n l) = head l.
Proof. intros H. destruct n; [lia|]. now destruct l. Qed.

Lemma leaderboard_head (db : list Server.Attempt) (q : option string) (a : Server.Attempt) :
  head (Server.leaderboard db q) = Some a →
  a ∈ List.filter (Server.matches q) db ∧
  Forall (Server.ranks_above a) (List.filter (Server.matches q) db).
Proof.
  unfold Server.leaderboard. intros Ha. rewrite head_take in Ha by lia.
  set (selected := List.filter (Server.matches q) db) in *.
  pose proof (sort_permutation selected) as Hperm.
  pose proof (sorted_head_ranks _ _ (sort_ranked selected) Ha) as Hall.
  split.
  - rewrite <- Hperm. destruct (Server.sort selected); [discriminate|].
    injection Ha as ->. now left.
  - now rewrite <- Hperm.
Qed.

Lemma leaderboard_empty (db : list Server.Attempt) (q : option string) :
  Server.leaderboard db q = [] ↔ List.filter (Server.matches q) db = [].
Proof.
  unfold Server.leaderboard.
  set (selected := List.filter (Server.matches q) db).
  pose proof (sort_permutation selected) as Hperm. split.
  - intros H. apply Permutation_nil_r. rewrite <- Hperm.
    destruct (Server.sort selected); [reflexivity | discriminate].
  - intros H. rewrite H in Hperm |- *. apply Permutation_nil_r in Hperm.
    now rewrite Hperm.
Qed.

(** X23. The leader is the best.  The first entry of a leaderboard ranks at
    least as high as every stored attempt the query selects; the board is
    empty only when there is no such attempt; with at most 50 of them none
    is left out; and without a problem id, or with an empty one, the query
    selects the attempts of all problems. *)
Theorem leaderboard_leader (db : list Server.Attempt) (q : option string) :
  let selected := List.filter (Server.matches q) db in
  let board := Server.leaderboard db q in
  (∀ a, head board = Some a → a ∈ selected ∧ Forall (Server.ranks_above a) selected) ∧
  (board = [] ↔ selected = []) ∧
  (length selected ≤ 50 → board ≡ₚ selected) ∧
  (q = None ∨ q = Some "" → selected = db).
Proof.
  intros selected board. split; [|split; [|split]].
  - apply leaderboard_head.
  - apply leaderboard_empty.
  - intros Hlen. subst board. unfold Server.leaderboard. fold selected.
    pose proof (sort_permutation selected) as Hperm.
    rewrite take_ge; [exact Hperm|]. now rewrite Hperm.
  - apply filter_matches_all.
Qed.

(** X24. A new record leads.  A post that names a problem and claims at most
    300 words per minute, and more than every stored attempt of that
    problem, is accepted, appended to the store, and from then on the first
    entry of the problem's leaderboard. *)
Theorem new_record_leads (db : list Server.Attempt) (b : Body)
    (pid fresh : string) (now : Z) :
  b_problemId b = Some pid → pid ≠ "" → (b_wpm b <= 300)%Z →
  Forall (λ x, Server.problemId x = pid → (Server.wpm x < b_wpm b)%Z) db →
  ∃ a, post_attempt db (Some b) fresh now = (Json a, db ++ [a]) ∧
       Server.id a = fresh ∧ Server.createdAt a = now ∧
       head (Server.leaderboard (db ++ [a]) (Some pid)) = Some a.
Proof.
  intros Hpid Hne Hw Hdb. unfold post_attempt. rewrite Hpid.
  apply String.eqb_neq in Hne as Hne'. rewrite Hne'.
  replace (300 <? b_wpm b)%Z with false by (symmetry; apply Z.ltb_ge; lia).
  eexists. split; [reflexivity|]. split; [reflexivity|]. split; [reflexivity|].
  set (a := {| Server.id := fresh |}).
  pose proof (leaderboard_head (db ++ [a]) (Some pid)) as Hhead.
  pose proof (leaderboard_empty (db ++ [a]) (Some pid)) as Hnil.
  destruct (head (Server.leaderboard (db ++ [a]) (Some pid))) as [h|] eqn:Hh.
  - f_equal. destruct (Hhead h eq_refl) as [Hin Hall].
    rewrite List.filter_app in Hin, Hall. cbn in Hin, Hall.
    rewrite Hne', String.eqb_refl in Hin, Hall.
    apply Forall_app in Hall as [_ Ha]. apply Forall_inv in Ha.
    apply elem_of_app in Hin as [Hin|Hin].
    + exfalso. apply list_elem_of_In, filter_In in Hin as [Hin Hm].
      apply (matches_problem pid h Hne) in Hm.
      rewrite Forall_forall in Hdb. apply list_elem_of_In in Hin.
      specialize (Hdb h Hin Hm). unfold Server.ranks_above in Ha. cbn in Ha. lia.
    + now apply list_elem_of_singleton in Hin.
  - exfalso. assert (E : Server.leaderboard (db ++ [a]) (Some pid) = []).
    { destruct (Server.leaderboard (db ++ [a]) (Some pid)); [reflexivity | discriminate]. }
    apply Hnil in E. rewrite List.filter_app in E. cbn in E.
    rewrite Hne', String.eqb_refl in E. now destruct (List.filter _ db).
Qed.

(** X25. Looking a problem up.  [GET /api/problems/:id] answers with a stored
    problem of that id, the first one, or with 404 when no stored problem
    has it; and [initDB] seeds only an empty store: it never leaves the
    problems empty, changes nothing when there are some, keeps the attempts
    and does nothing when run again. *)
Theorem problem_lookup (d : Data) (id : string) :
  match get_problem d id with
  | Json p =>
      p_id p = id ∧
      ∃ before after, problems d = before ++ p :: after ∧
                      Forall (λ x, p_id x ≠ id) before
  | Error status _ => status = 404 ∧ Forall (λ x, p_id x ≠ id) (problems d)
  end ∧
  problems (initDB d) ≠ [] ∧ attempts (initDB d) = attempts d ∧
  (problems d ≠ [] → initDB d = d) ∧ initDB (initDB d) = initDB d.
Proof.
  split; [|split; [|split; [|split]]].
  - unfold get_problem. induction (problems d) as [|x l IH]; cbn.
    + split; [reflexivity | constructor].
    + destruct (String.eqb (p_id x) id) eqn:E.
      * split; [now apply String.eqb_eq|]. exists [], l. split; [reflexivity | constructor].
      * apply String.eqb_neq in E.
        destruct (List.find (λ x, String.eqb (p_id x) id) l) as [p|].
        -- destruct IH as (Hid & before & after & -> & Hb).
           split; [exact Hid|]. exists (x :: before), after.
           split; [reflexivity | now constructor].
        -- destruct IH as [Hs Hall]. split; [exact Hs | now constructor].
  - unfold initDB. destruct (problems d) eqn:E; cbn; [discriminate | now rewrite E].
  - unfold initDB. now destruct (problems d).
  - intros H. unfold initDB. now destruct (problems d).
  - unfold initDB. destruct (problems d) eqn:E; cbn; [reflexivity | now rewrite E].
Qed.

End ApiFacts.

(** ** The leaderboard for every query *)

Section ServerBoard.

Lemma filter_matches_problem (pid : string) (db : list Server.Attempt) :
  pid ≠ "" →
  List.filter (Server.matches (Some pid)) db =
  List.filter (λ a, String.eqb (Server.problemId a) pid) db.
Proof.
  intros Hne. induction db as [|a db IH]; [reflexivity|].
  cbn [List.filter]. rewrite IH. unfold Server.matches.
  now destruct (String.eqb_spec pid "").
Qed.

(** C9, amended. For every stored list of attempts and every query, the
    leaderboard is the first 50 entries of a list that holds exactly the
    selected attempts, ordered by wpm descending, ties broken by accuracy
    descending, attempts that tie on both in the order they were stored.
    The selected attempts are those of the problem when the query names a
    problem id that is not empty, and the attempts of all problems when the
    query has no problem id or an empty one. *)
Theorem leaderboard_top50 (db : list Server.Attempt) (q : option string) :
  let selected := List.filter (Server.matches q) db in
  let r := Server.leaderboard db q in
  (q = None ∨ q = Some "" → selected = db) ∧
  (∀ pid, q = Some pid → pid ≠ "" →
     selected = List.filter (λ a, String.eqb (Server.problemId a) pid) db ∧
     ∀ a, a ∈ r → a ∈ db ∧ Server.problemId a = pid) ∧
  length r ≤ 50 ∧
  (∀ a, a ∈ r → a ∈ selected) ∧
  StronglySorted Server.ranks_above r ∧
  ∃ s, r = take 50 s ∧ s ≡ₚ selected ∧ StronglySorted Server.ranks_above s ∧
       ∀ x, List.filter (Server.ties x) s = List.filter (Server.ties x) selected.
Proof.
  intros selected r.
  assert (Hin : ∀ a, a ∈ r → a ∈ selected).
  { intros a Ha. unfold r, Server.leaderboard in Ha.
    apply (subseteq_take 50) in Ha. fold selected in Ha.
    now rewrite sort_permutation in Ha. }
  split; [intros Hq; now apply filter_matches_all|].
  split.
  { intros pid -> Hne. split; [now apply filter_matches_problem|].
    intros a Ha. specialize (Hin a Ha). unfold selected in Hin.
    rewrite filter_matches_problem in Hin by exact Hne.
    apply list_elem_of_In, List.filter_In in Hin as [Hdb He].
    split; [now apply list_elem_of_In | now apply String.eqb_eq]. }
  split; [unfold r, Server.leaderboard; rewrite length_take; lia|].
  split; [exact Hin|].
  split.
  { unfold r, Server.leaderboard. fold selected.
    apply (StronglySorted_app_1_l _ _ (drop 50 (Server.sort selected))).
    rewrite take_drop. apply sort_ranked. }
  exists (Server.sort selected).
  split; [reflexivity|]. split; [apply sort_permutation|].
  split; [apply sort_ranked | intros x; apply sort_stable].
Qed.

End ServerBoard.

(** C9 as the spec states it fails: with an empty problem id the query
    returns the attempts of every problem. *)
Lemma leaderboard_of_all_problems :
  let a := {| Server.id := "1"; Server.user := "u"; Server.problemId := "p1";
              Server.wpm := 10; Server.accuracy := 90; Server.rawText := "";
              Server.durationMs := 1000; Server.createdAt := 1 |} in
  let b := {| Server.id := "2"; Server.user := "v"; Server.problemId := "p2";
              Server.wpm := 20; Server.accuracy := 80; Server.rawText := "";
              Server.durationMs := 1000; Server.createdAt := 2 |} in
  Server.leaderboard [a; b] (Some "") = [b; a] ∧
  Server.leaderboard [a; b] None = [b; a] ∧
  Server.problemId b ≠ Server.problemId a.
Proof. vm_compute. repeat split; discriminate. Qed.

Lemma leaderboard_top50_witness :
  let a := {| Server.id := "1"; Server.user := "u"; Server.problemId := "p1";
              Server.wpm := 10; Server.accuracy := 90; Server.rawText := "";
              Server.durationMs := 1000; Server.createdAt := 1 |} in
  let b := {| Server.id := "2"; Server.user := "v"; Server.problemId := "p2";
              Server.wpm := 20; Server.accuracy := 80; Server.rawText := "";
              Server.durationMs := 1000; Server.createdAt := 2 |} in
  Forall (λ x, Server.problemId x = "p1") (Server.leaderboard [a; b; a] (Some "p1")).
Proof.
  intros a b. apply Forall_forall. intros x Hx.
  destruct (leaderboard_top50 [a; b; a] (Some "p1")) as (_ & H & _).
  destruct (H "p1" eq_refl) as [_ H']; [discriminate|].
  exact (proj2 (H' x Hx)).
Defined.

(** * TypingFastCached: sessions with their renders *)

Section SessionRender.
Variable P : Props.

Lemma span_at_Some (l : list (option Span)) (i : nat) (sp : Span) :
  Session.span_at l i = Some sp ↔ l !! i = Some (Some sp).
Proof.
  unfold Session.span_at. destruct (l !! i) as [[s|]|]; cbn; split; congruence.
Qed.

Lemma span_at_None (l : list (option Span)) (i : nat) :
  Session.span_at l i = None ↔ (l !! i = None ∨ l !! i = Some None).
Proof.
  unfold Session.span_at. destruct (l !! i) as [[s|]|]; cbn; split;
    try congruence; auto; intros [?|?]; congruence.
Qed.

Lemma span_at_detach (l : list (option Span)) (i : nat) :
  Session.span_at (Session.detach l) i = None.
Proof.
  unfold Session.span_at, Session.detach. rewrite list_lookup_fmap.
  now destruct (l !! i).
Qed.


(** What a commit of the prompt view leaves at an index. *)
Lemma attach_from_span_at (cs : list string) (i : nat) (old : list (option Span)) (k : nat) :
  Session.span_at (Session.attach_from i cs old) k =
  match cs !! k with
  | Some c =>
      if String.eqb c NL then None
      else Some (default blank (Session.span_at old (i + k)))
  | None => None
  end.
Proof.
  revert i k. induction cs as [|c cs IH]; intros i k; [reflexivity|].
  cbn [Session.attach_from]. destruct k as [|k].
  - cbn [lookup list_lookup]. rewrite Nat.add_0_r.
    destruct (String.eqb c NL); [|reflexivity].
    now destruct (Session.attach_from (S i) cs old).
  - change ((c :: cs) !! S k) with (cs !! k).
    replace (i + S k) with (S i + k) by lia. rewrite <- IH.
    destruct (String.eqb c NL); [|reflexivity].
    now destruct (Session.attach_from (S i) cs old).
Qed.

Lemma attach_span_at (old : list (option Span)) (k : nat) :
  Session.span_at (Session.attach P old) k =
  match chars P !! k with
  | Some c =>
      if String.eqb c NL then None else Some (default blank (Session.span_at old k))
  | None => None
  end.
Proof. unfold Session.attach. now rewrite attach_from_span_at. Qed.

Lemma attach_from_length (cs : list string) (i : nat) (old : list (option Span)) :
  Forall (λ c, c ≠ NL) cs → length (Session.attach_from i cs old) = length cs.
Proof.
  intros H. revert i. induction H as [|c cs Hc _ IH]; intros i; [reflexivity|].
  cbn [Session.attach_from]. apply String.eqb_neq in Hc. rewrite Hc.
  cbn. now rewrite IH.
Qed.

Lemma attach_length (old : list (option Span)) :
  Forall (λ c, c ≠ NL) (chars P) → length (Session.attach P old) = length (chars P).
Proof. apply attach_from_length. Qed.

Lemma attach_lookup (old : list (option Span)) (k : nat) :
  Forall (λ c, c ≠ NL) (chars P) → k < length (chars P) →
  Session.attach P old !! k = Some (Some (default blank (Session.span_at old k))).
Proof.
  intros Hnl Hk.
  pose proof (attach_span_at old k) as H.
  pose proof (attach_length old Hnl) as Hlen.
  destruct (lookup_lt_is_Some_2 (chars P) k Hk) as [c Hc]. rewrite Hc in H.
  rewrite Forall_lookup in Hnl. specialize (Hnl k c Hc).
  apply String.eqb_neq in Hnl. rewrite Hnl in H.
  destruct (lookup_lt_is_Some_2 (Session.attach P old) k) as [x Hx]; [lia|].
  unfold Session.span_at in H at 1. rewrite Hx in H. cbn in H. now rewrite Hx, H.
Qed.

(** Where every character has its span the commit changes nothing. *)
Lemma attach_id (l : list (option Span)) :
  Forall (λ c, c ≠ NL) (chars P) → length l = length (chars P) →
  (∀ k, k < length (chars P) → ∃ sp, l !! k = Some (Some sp)) →
  Session.attach P l = l.
Proof.
  intros Hnl Hlen H. apply list_eq. intros k.
  destruct (decide (k < length (chars P))) as [Hk|Hk].
  - rewrite attach_lookup by assumption. destruct (H k Hk) as [sp Hsp].
    unfold Session.span_at. now rewrite Hsp.
  - rewrite !lookup_ge_None_2; [reflexivity | lia |].
    rewrite attach_length by assumption. lia.
Qed.

Lemma set_spans_same (st : State) : set_spans (spans st) st = st.
Proof. now destruct st. Qed.

Lemma lockstep_attach (st : State) :
  Forall (λ c, c ≠ NL) (chars P) → lockstep P st →
  set_spans (Session.attach P (spans st)) st = st.
Proof.
  intros Hnl [Hlen H]. rewrite attach_id; [apply set_spans_same | assumption..|].
  intros k Hk. destruct (H k Hk) as (sp & Hsp & _). eauto.
Qed.

End SessionRender.

Section SessionHandlers.
Variable P : Props.

Lemma shown_frame (st st' : State) :
  Session.shown st → finished st' = finished st → report st' = report st →
  Session.shown st'.
Proof. unfold Session.shown. intros H -> ->. exact H. Qed.

Lemma shown_typing (st : State) :
  Session.shown st → report st = None → finished st = false.
Proof.
  unfold Session.shown. intros H Hr. destruct (finished st); [|reflexivity].
  destruct (proj1 H eq_refl Hr).
Qed.

Lemma orderly_ahead (st st' : State) :
  Session.orderly P st → spans st' = spans st → pos st ≤ pos st' →
  Session.orderly P st'.
Proof.
  intros H He Hp i sp Hi. rewrite He in Hi. destruct (H i sp Hi) as [A B].
  split; [exact A|]. intros Hle. apply B. lia.
Qed.

Lemma orderly_within (st : State) (p : nat) (sp : Span) :
  Session.orderly P st → spans st !! p = Some (Some sp) → p < length (chars P).
Proof.
  intros H Hp. destruct (H p sp Hp) as [(c & Hc & _) _].
  apply lookup_lt_is_Some. eauto.
Qed.

Lemma finishIfNeeded_shown (p : nat) (now : Z) (st : State) :
  Session.shown st → Session.shown (finishIfNeeded P p now st).
Proof.
  intros H. destruct (finished st) eqn:E.
  { now rewrite finishIfNeeded_finished. }
  unfold finishIfNeeded. rewrite E.
  destruct (length (chars P) <=? p); [|exact H].
  unfold Session.shown. cbn. split; [intros _; discriminate | intros _; reflexivity].
Qed.

Lemma writeChar_shown (p : nat) (now : Z) (ch : string) (st : State) :
  Session.shown st → Session.shown (writeChar P p now ch st).
Proof.
  intros H. unfold writeChar. destruct (finished st) eqn:E; [exact H|].
  destruct (spans st !! p) as [[sp|]|]; apply finishIfNeeded_shown;
    exact (shown_frame st _ H eq_refl eq_refl).
Qed.

Lemma fullReset_shown (st : State) : Session.shown (fullReset st).
Proof. unfold Session.shown. cbn. split; [discriminate | congruence]. Qed.

Lemma handleKeyDown_shown (st : State) (i : Input) :
  Session.shown st → Session.shown (handleKeyDown P st i).
Proof.
  intros H. rewrite handleKeyDown_classify.
  destruct (start_timer_frame i st) as (_ & _ & Hf & Hr & _).
  pose proof (shown_frame st _ H Hf Hr) as H'.
  destruct (classify (ev i)); try assumption.
  - destruct (backspace_frame (start_timer i st)) as (_ & Hf' & Hr' & _).
    exact (shown_frame _ _ H' Hf' Hr').
  - now apply writeChar_shown.
  - cbv zeta. now do 4 apply writeChar_shown.
  - now apply writeChar_shown.
  - apply fullReset_shown.
Qed.

Lemma fullReset_orderly (st : State) :
  Session.orderly P st → Session.orderly P (fullReset st).
Proof.
  intros H i sp Hi. rewrite fullReset_spans, list_lookup_fmap in Hi.
  destruct (spans st !! i) as [[s|]|] eqn:E; cbn in Hi; try discriminate.
  injection Hi as <-. split; [exact (proj1 (H i s E)) | reflexivity].
Qed.

Lemma backspace_orderly (st : State) :
  Session.orderly P st → Session.orderly P (backspace st).
Proof.
  intros H. unfold backspace.
  destruct (pos st =? 0) eqn:E0; [exact H|].
  apply Nat.eqb_neq in E0.
  destruct (spans st !! (pos st - 1)) as [[sp|]|] eqn:Hprev.
  - intros i s Hi. cbn in Hi |- *.
    destruct (decide (i = pos st - 1)) as [->|Hne].
    + rewrite list_lookup_insert_eq in Hi by (apply lookup_lt_is_Some; eauto).
      injection Hi as <-. split; [exact (proj1 (H _ _ Hprev)) | reflexivity].
    + rewrite list_lookup_insert_ne in Hi by congruence.
      destruct (H i s Hi) as [A B]. split; [exact A|]. intros Hle. apply B. lia.
  - intros i s Hi. cbn in Hi |- *.
    destruct (decide (i = pos st - 1)) as [->|Hne]; [congruence|].
    destruct (H i s Hi) as [A B]. split; [exact A|]. intros Hle. apply B. lia.
  - intros i s Hi. cbn in Hi |- *.
    destruct (decide (i = pos st - 1)) as [->|Hne]; [congruence|].
    destruct (H i s Hi) as [A B]. split; [exact A|]. intros Hle. apply B. lia.
Qed.

(** One [writeChar] of a handler. *)
Lemma writeChar_midway (p : nat) (now : Z) (ch : string) (s : State) :
  Session.midway P p s → Session.midway P p (writeChar P p now ch s).
Proof.
  intros (Hsh & Ho & Hr & Hp & Hsp).
  destruct (finished s) eqn:Hf.
  { rewrite writeChar_finished by exact Hf.
    exact (conj Hsh (conj Ho (conj Hr (conj Hp Hsp)))). }
  assert (Hrn : report s = None).
  { destruct (report s) eqn:E; [|reflexivity].
    assert (finished s = true) by (apply Hsh; congruence). congruence. }
  destruct (span_or_not (spans s) p) as [[sp Hs]|Hs].
  - pose proof (orderly_within s p sp Ho Hs) as Hlt.
    rewrite (writeChar_on_span P p now ch s sp Hf Hs), finishIfNeeded_not_due by exact Hlt.
    split; [exact Hsh|]. split; [|split; [|split]].
    + intros i x Hi. cbn in Hi |- *.
      destruct (decide (i = p)) as [->|Hne].
      * split; [exact (proj1 (Ho p sp Hs)) | lia].
      * rewrite list_lookup_insert_ne in Hi by congruence.
        destruct (Ho i x Hi) as [A B]. split; [exact A|]. intros Hle. apply B.
        specialize (Hsp (ex_intro _ sp Hs)). lia.
    + cbn. rewrite Hrn. congruence.
    + cbn. lia.
    + cbn. lia.
  - rewrite (writeChar_beyond P p now ch s Hf Hs).
    assert (Hno : ¬ ∃ sp, spans s !! p = Some (Some sp)).
    { intros [sp Hx]. destruct Hs as [Hs|Hs]; congruence. }
    unfold finishIfNeeded. cbn [finished set_pos]. rewrite Hf.
    destruct (Nat.leb_spec (length (chars P)) p) as [Hdue|Hnot].
    + split; [split; [intros _; discriminate | intros _; reflexivity]|].
      split; [eapply orderly_ahead; [exact Ho | reflexivity | cbn; lia]|].
      cbn. split; [intros _; lia|]. split; [lia|]. intros Hx. now destruct Hno.
    + split; [exact Hsh|].
      split; [eapply orderly_ahead; [exact Ho | reflexivity | cbn; lia]|].
      cbn. split; [rewrite Hrn; congruence|]. split; [lia|]. intros Hx. now destruct Hno.
Qed.

Lemma start_timer_midway (i : Input) (st : State) :
  Session.tame P st → report st = None →
  Session.midway P (pos st) (start_timer i st).
Proof.
  intros (Hsh & Ho & _) Hr.
  destruct (start_timer_frame i st) as (Ep & Es & Ef & Er & _).
  split; [exact (shown_frame _ _ Hsh Ef Er)|].
  split; [eapply orderly_ahead; [exact Ho | exact Es | lia]|].
  rewrite Er, Ep. split; [congruence|]. split; [lia|]. intros _. lia.
Qed.

(** The state a handler leaves, before the commit. *)
Lemma handleKeyDown_midway (st : State) (i : Input) :
  Session.tame P st → report st = None →
  let h := handleKeyDown P st i in
  Session.shown h ∧ Session.orderly P h ∧
  (report h ≠ None → length (chars P) < pos h).
Proof.
  intros Ht Hr h.
  assert (Hmid : ∀ p s, Session.midway P p s →
            Session.shown s ∧ Session.orderly P s ∧
            (report s ≠ None → length (chars P) < pos s)).
  { intros p s (A & B & C & _). auto. }
  pose proof (start_timer_midway i st Ht Hr) as Hs.
  destruct (start_timer_frame i st) as (Ep & Es & Ef & Er & _).
  subst h. rewrite handleKeyDown_classify.
  destruct (classify (ev i)).
  - destruct Ht as (A & B & _). split; [exact A|]. split; [exact B|]. congruence.
  - destruct Hs as (A & B & _).
    destruct (backspace_frame (start_timer i st)) as (_ & Hf' & Hr' & _).
    split; [exact (shown_frame _ _ A Hf' Hr')|].
    split; [now apply backspace_orderly|]. rewrite Hr', Er. congruence.
  - eapply Hmid. now apply writeChar_midway.
  - cbv zeta. eapply Hmid. now do 4 apply writeChar_midway.
  - eapply Hmid. now apply writeChar_midway.
  - destruct Hs as (A & B & _). split; [apply fullReset_shown|].
    split; [now apply fullReset_orderly|]. cbn. congruence.
  - eapply Hmid. exact Hs.
Qed.

Lemma attach_tame (h : State) :
  Session.shown h → Session.orderly P h → report h = None →
  Session.tame P (set_spans (Session.attach P (spans h)) h).
Proof.
  intros Hsh Ho E.
  split; [exact (shown_frame h _ Hsh eq_refl eq_refl)|]. split.
  - intros i sp Hi. cbn in Hi |- *. apply span_at_Some in Hi.
    rewrite attach_span_at in Hi.
    destruct (chars P !! i) as [c|] eqn:Hc; [|discriminate].
    destruct (String.eqb_spec c NL) as [|Hne]; [discriminate|].
    injection Hi as <-. split; [eauto|]. intros Hle.
    destruct (Session.span_at (spans h) i) as [x|] eqn:Hx; [|reflexivity].
    apply span_at_Some in Hx. cbn. exact (proj2 (Ho i x Hx) Hle).
  - cbn. rewrite E. congruence.
Qed.

Lemma commit_tame (st h : State) :
  Session.shown h → Session.orderly P h →
  (report h ≠ None → length (chars P) < pos h) →
  Session.tame P (Session.commit P st h).
Proof.
  intros Hsh Ho Hr.
  unfold Session.commit. destruct (report h) as [r|] eqn:E.
  - split; [exact (shown_frame h _ Hsh eq_refl eq_refl)|]. split.
    + intros i sp Hi. cbn in Hi. unfold Session.detach in Hi.
      rewrite list_lookup_fmap in Hi. destruct (spans h !! i); discriminate.
    + cbn. intros _. split; [intros i; apply span_at_detach|].
      apply Hr. congruence.
  - pose proof (attach_tame h Hsh Ho E) as Hatt.
    destruct (report st); [exact Hatt|].
    destruct (pos h =? pos st); [|exact Hatt].
    split; [exact Hsh|]. split; [exact Ho|]. rewrite E. congruence.
Qed.

Lemma mount_tame : Session.tame P Session.mount.
Proof.
  split; [split; [discriminate | cbn; congruence]|]. split.
  - intros i sp Hi. discriminate.
  - cbn. congruence.
Qed.

Lemma act_tame (st : State) (a : Session.Action) :
  Session.tame P st → Session.tame P (Session.act P st a).
Proof.
  intros Ht. destruct a as [i| |]; cbn [Session.act].
  - destruct (report st) eqn:E; [exact Ht|].
    destruct (handleKeyDown_midway st i Ht E) as (A & B & C).
    now apply commit_tame.
  - destruct Ht as (A & B & _).
    apply commit_tame; [apply fullReset_shown | now apply fullReset_orderly |].
    cbn. congruence.
  - unfold Session.render. destruct (report st) eqn:E; [exact Ht|].
    destruct Ht as (A & B & _). now apply attach_tame.
Qed.

Lemma session_run_app (st : State) (a b : list Session.Action) :
  Session.run P st (a ++ b) = Session.run P (Session.run P st a) b.
Proof. unfold Session.run. apply fold_left_app. Qed.

Lemma run_tame (st : State) (acts : list Session.Action) :
  Session.tame P st → Session.tame P (Session.run P st acts).
Proof.
  revert st. induction acts as [|a acts IH]; intros st H; [exact H|].
  change (Session.run P st (a :: acts)) with (Session.run P (Session.act P st a) acts).
  apply IH. now apply act_tame.
Qed.

Lemma reachable_tame (acts : list Session.Action) :
  Session.tame P (Session.run P Session.mount acts).
Proof. apply run_tame, mount_tame. Qed.

(** While the summary is shown nothing arrives but the click on Try
    Again. *)
Lemma act_key_shown (st : State) (i : Input) :
  report st ≠ None → Session.act P st (Session.Key i) = st.
Proof. intros H. cbn. now destruct (report st). Qed.

End SessionHandlers.

Section SessionLockstep.
Variable P : Props.

Lemma none_typed_count (st : State) :
  (∀ i, Session.span_at (spans st) i = None) → typed_count st = 0.
Proof.
  intros H. unfold typed_count.
  assert (Hle : length (List.filter is_typed (spans st)) ≤ 0); [|lia].
  apply count_at_most. intros i x Hx Ht.
  specialize (H i). unfold Session.span_at in H. rewrite Hx in H. cbn in H.
  subst x. discriminate.
Qed.






(** While the prompt is shown with its spans stored, a key event and the
    commit after it are the handler alone. *)
Lemma act_is_handler (st : State) (i : Input) :
  Forall (λ c, c ≠ NL) (chars P) → lockstep P st → report st = None →
  report (handleKeyDown P st i) = None →
  Session.act P st (Session.Key i) = handleKeyDown P st i.
Proof.
  intros Hnl HL Hr Hh. cbn [Session.act]. rewrite Hr.
  unfold Session.commit. rewrite Hh, Hr.
  rewrite lockstep_attach by (assumption || now apply handleKeyDown_lockstep).
  now destruct (_ =? _).
Qed.



End SessionLockstep.



Section SessionOverflow.
Variable P : Props.

(** [writeChar] past the stored spans of a session that is due. *)
Lemma writeChar_overflow (p : nat) (now : Z) (ch : string) (s : State) :
  finished s = false → length (chars P) ≤ p →
  (spans s !! p = None ∨ spans s !! p = Some None) →
  let d := match startTs s with
           | Some t => if (t =? 0)%Z then 0%Z else (now - t)%Z
           | None => 0%Z
           end in
  let typed := typedStr (spans s) in
  let w := calcWPM (JsNum.of_nat (String.length typed)) (JsNum.of_Z d) in
  let acc := calcAccuracy (spans s) (String.length typed) in
  let a := {| user := current_user P; problemId := problem_id P; wpm := w;
              accuracy := acc; rawText := typed; durationMs := d |} in
  writeChar P p now ch s =
  {| pos := pos s + 1; spans := spans s; startTs := startTs s; finished := true;
     report := Some {| rep_wpm := w; rep_accuracy := acc;
                       rep_durationMs := d; rep_rawText := typed |};
     posted := if autoSubmit P then a :: posted s else posted s;
     notified := if has_callback P then a :: notified s else notified s |}.
Proof.
  intros Hf Hle Hs d typed w acc a.
  rewrite (writeChar_beyond P p now ch s Hf Hs).
  unfold finishIfNeeded. cbn [finished set_pos]. rewrite Hf.
  destruct (Nat.leb_spec (length (chars P)) p) as [_|Hlt]; [reflexivity | lia].
Qed.

(** No span is stored at or past the end of the prompt. *)
Lemma tame_beyond (st : State) (p : nat) :
  Session.tame P st → length (chars P) ≤ p →
  spans st !! p = None ∨ spans st !! p = Some None.
Proof.
  intros (_ & Ho & _) Hle.
  destruct (span_or_not (spans st) p) as [[sp Hsp]|H]; [|exact H].
  pose proof (orderly_within P st p sp Ho Hsp). lia.
Qed.

Lemma canvas_printable_step (c : Monaco.State) (i : Input) :
  is_printable (ev i) = true →
  let ch := if String.eqb (key (ev i)) Canvas.CR then NL else key (ev i) in
  Monaco.typed (Canvas.step P c i) = Monaco.typed c ++ [ch] ∧
  (Monaco.finished c = true →
   Monaco.finished (Canvas.step P c i) = true ∧
   Monaco.posted (Canvas.step P c i) = Monaco.posted c ∧
   Monaco.notified (Canvas.step P c i) = Monaco.notified c).
Proof.
  intros Hi ch. unfold Canvas.step, Canvas.handleKeyDown. cbv beta zeta.
  rewrite (printable_not_paste _ Hi), Hi. fold ch.
  destruct (ts_unset (Monaco.startTs c)); cbn [andb].
  - match goal with |- context [if ?b then _ else _] => destruct b eqn:E end.
    + split; [now rewrite monaco_finishIfNeeded_typed|].
      intros Hf. apply andb_prop in E as [_ E]. cbn in E. rewrite Hf in E. discriminate.
    + split; [reflexivity|]. intros Hf. cbn. auto.
  - match goal with |- context [if ?b then _ else _] => destruct b eqn:E end.
    + split; [now rewrite monaco_finishIfNeeded_typed|].
      intros Hf. apply andb_prop in E as [_ E]. cbn in E. rewrite Hf in E. discriminate.
    + split; [reflexivity|]. intros Hf. cbn. auto.
Qed.

(** C3, amended. A printable key at or past the end of the prompt is not
    ignored.  In TypingFastCached, in a state a session reaches while the
    prompt is shown, the handler leaves every stored span as it is, moves
    the position on by one and finishes the session with one record; the
    commit that follows shows the summary, so no span is stored any more,
    no verdict is left and no key event can follow.  In TypingCanvas the
    key's character is appended to what was typed, so the position moves on
    by one, in every state; in a finished session nothing more is sent. *)
Theorem overflow_keystroke (acts : list Session.Action) (i : Input) (c : Monaco.State) :
  is_printable (ev i) = true →
  (let st := Session.run P Session.mount acts in
   report st = None → length (chars P) ≤ pos st →
   let h := handleKeyDown P st i in
   let st' := Session.act P st (Session.Key i) in
   (spans h = spans st ∧ pos h = pos st + 1 ∧ finished h = true ∧
    ∃ a, rawText a = typedStr (spans st) ∧
         report h = Some {| rep_wpm := wpm a; rep_accuracy := accuracy a;
                            rep_durationMs := durationMs a; rep_rawText := rawText a |} ∧
         posted h = (if autoSubmit P then a :: posted st else posted st) ∧
         notified h = (if has_callback P then a :: notified st else notified st)) ∧
   (pos st' = pos st + 1 ∧ finished st' = true ∧ report st' = report h ∧
    posted st' = posted h ∧ notified st' = notified h ∧
    (∀ j, Session.span_at (spans st') j = None) ∧ typed_count st' = 0 ∧
    ∀ k, Session.act P st' (Session.Key k) = st')) ∧
  (let c' := Canvas.step P c i in
   Monaco.typed c' =
     Monaco.typed c ++ [if String.eqb (key (ev i)) Canvas.CR then NL else key (ev i)] ∧
   Monaco.position c' = Monaco.position c + 1 ∧
   (Monaco.finished c = true →
    Monaco.finished c' = true ∧ Monaco.posted c' = Monaco.posted c ∧
    Monaco.notified c' = Monaco.notified c)).
Proof.
  intros Hi. split.
  - intros st Hr Hle h st'.
    assert (Ht : Session.tame P st) by apply reachable_tame.
    pose proof (shown_typing st (proj1 Ht) Hr) as Hf.
    destruct (start_timer_frame i st) as (Ep & Es & Ef & Er & Epo & Eno).
    assert (Hh : h = writeChar P (pos st) (now_finish i) (key (ev i)) (start_timer i st)).
    { unfold h. now rewrite handleKeyDown_classify, (printable_classify _ Hi). }
    rewrite writeChar_overflow in Hh;
      [|congruence | exact Hle | rewrite Es; now apply tame_beyond].
    assert (Hst' : st' = set_spans (Session.detach (spans h)) h).
    { unfold st'. cbn [Session.act]. rewrite Hr. fold h. unfold Session.commit.
      now rewrite Hh. }
    assert (Hnone : ∀ j, Session.span_at (spans st') j = None).
    { intros j. rewrite Hst'. apply span_at_detach. }
    split.
    + rewrite Hh. cbn. rewrite Es, Ep, Epo, Eno.
      split; [reflexivity|]. split; [reflexivity|]. split; [reflexivity|].
      eexists {| user := _; problemId := _; wpm := _; accuracy := _;
                 rawText := _; durationMs := _ |}.
      cbn. split; [reflexivity|]. split; [reflexivity|]. split; reflexivity.
    + assert (Hrs : report st' = report h) by now rewrite Hst'.
      split; [rewrite Hst'; cbn [pos set_spans]; rewrite Hh; cbn [pos]; now rewrite Ep|].
      split; [rewrite Hst'; cbn [finished set_spans]; now rewrite Hh|].
      split; [exact Hrs|].
      split; [now rewrite Hst'|]. split; [now rewrite Hst'|].
      split; [exact Hnone|].
      split; [now apply none_typed_count|].
      intros k. apply act_key_shown. rewrite Hrs, Hh. discriminate.
  - intros c'. destruct (canvas_printable_step c i Hi) as [A B]. fold c' in A, B.
    split; [exact A|]. split; [|exact B].
    unfold Monaco.position. rewrite A, length_app. reflexivity.
Qed.

End SessionOverflow.

(** C3 as the spec states it fails: at the end of the prompt a printable
    key changes the state.  In TypingCanvas, on the prompt "a" the key b
    after the key a is appended to what was typed; in TypingFastCached, on
    the empty prompt the first key moves the position to 1. *)
Lemma overflow_keystroke_not_ignored :
  (let P := demo ["a"] in
   let c := Canvas.run P Monaco.init [press "a" 1000] in
   Monaco.position c = length (chars P) ∧
   Monaco.typed (Canvas.step P c (press "b" 2000)) = ["a"; "b"] ∧
   Canvas.step P c (press "b" 2000) ≠ c) ∧
  (let P := demo [] in
   let st := Session.mount in
   pos st = length (chars P) ∧
   pos (Session.act P st (Session.Key (press "b" 2000))) = 1 ∧
   Session.act P st (Session.Key (press "b" 2000)) ≠ st).
Proof.
  vm_compute. repeat split; try reflexivity; discriminate.
Qed.

Lemma overflow_keystroke_witness :
  let P := demo ["a"] in
  let acts := [Session.Key (press "x" 1000)] in
  let st := Session.run P Session.mount acts in
  let i := press "b" 2000 in
  is_printable (ev i) = true ∧ report st = None ∧ length (chars P) ≤ pos st ∧
  pos (Session.act P st (Session.Key i)) = 2 ∧
  Monaco.position (Canvas.step P Monaco.init i) = 1.
Proof.
  intros P acts st i.
  assert (Hi : is_printable (ev i) = true) by reflexivity.
  assert (Hr : report st = None) by reflexivity.
  assert (Hle : length (chars P) ≤ pos st) by (vm_compute; lia).
  split; [exact Hi|]. split; [exact Hr|]. split; [exact Hle|].
  destruct (overflow_keystroke P acts i Monaco.init Hi) as [A B].
  destruct (A Hr Hle) as [_ (Hp & _)].
  destruct B as (_ & Hc & _).
  split; [exact Hp | exact Hc].
Defined.

Section SessionEmpty.
Variable P : Props.




Lemma named_not_printable (e : KeyEvent) :
  key e = "Enter" ∨ key e = "Tab" → is_printable e = false.
Proof. unfold is_printable. intros [H|H]; rewrite H; reflexivity. Qed.


Lemma appended_nonempty (e : KeyEvent) :
  typing_key e → 0 < length (Canvas.appended e).
Proof.
  unfold Canvas.appended. intros [H|H].
  - rewrite H. cbn. lia.
  - rewrite (named_not_printable _ H). destruct H as [H|H]; rewrite H; cbn; lia.
Qed.



End SessionEmpty.



Section SessionUndo.
Variable P : Props.








End SessionUndo.


(** Spans that are clean below [j0] and carry from there on the keys [ks]
    judged against the characters [cs]. *)
Lemma marked_from (j0 : nat) (cs ks : list string) (l : list (option Span)) :
  length ks = length cs → length l = length cs →
  (∀ i c k, cs !! i = Some c → ks !! i = Some k →
     l !! i = Some (Some (if decide (j0 ≤ i)
                          then {| typedChar := Some k; cls_correct := String.eqb k c;
                                  cls_incorrect := negb (String.eqb k c) |}
                          else blank))) →
  typedStr l = String.concat "" (drop j0 ks) ∧
  count_correct l = Monaco.count_matches (drop j0 cs) (drop j0 ks).
Proof.
  revert cs ks l. induction j0 as [|j0 IH]; intros cs ks l Hk Hl H.
  - rewrite !drop_0. apply marked_text; [assumption..|].
    intros i c k Hc Hks. rewrite (H i c k Hc Hks).
    destruct (decide (0 ≤ i)); [reflexivity | lia].
  - destruct cs as [|c cs], ks as [|k ks], l as [|s l]; try discriminate.
    { split; reflexivity. }
    pose proof (H 0 c k eq_refl eq_refl) as H0. cbn in H0. injection H0 as ->.
    destruct (IH cs ks l) as [IH1 IH2].
    + cbn in Hk. lia.
    + cbn in Hl. lia.
    + intros i c' k' Hc Hk'. pose proof (H (S i) c' k' Hc Hk') as HS.
      etrans; [exact HS|]. destruct (decide (S j0 ≤ S i)), (decide (j0 ≤ i)); try lia; reflexivity.
    + split.
      * rewrite typedStr_cons. cbn [drop]. exact IH1.
      * cbn [drop]. rewrite <- IH2. reflexivity.
Qed.

Section SessionRecord.
Variable P : Props.

(** The state after the keys [ks] from index [j0] on, [m] of them, in a
    session that shows a prompt without newlines with clean spans and the
    position at [j0]. *)
Lemma session_keys (ks : list string) (t : Z) (s : State) (j0 m : nat) :
  Forall (λ c, c ≠ NL) (chars P) →
  Forall (λ k, String.length k = 1) ks →
  length ks = length (chars P) →
  report s = None → finished s = false → pos s = j0 →
  length (spans s) = length (chars P) →
  (∀ k, k < length (chars P) → spans s !! k = Some (Some blank)) →
  j0 + m ≤ length (chars P) →
  let st := Session.run P s
              ((λ k, Session.Key (press k t)) <$> take m (drop j0 ks)) in
  pos st = j0 + m ∧ finished st = false ∧ report st = None ∧
  posted st = posted s ∧ notified st = notified s ∧
  length (spans st) = length (chars P) ∧
  ∀ i k, ks !! i = Some k →
         spans st !! i =
         Some (Some (if decide (j0 ≤ i < j0 + m) then mark P i k else blank)).
Proof.
  intros Hnl Hks Hlen Hr Hf Hp Hl Hb. induction m as [|m IH]; intros Hm st.
  - subst st. rewrite take_0. cbn. repeat split; try assumption; try lia.
    intros i k Hk. rewrite Hb.
    + destruct (decide (j0 ≤ i < j0 + 0)); [lia | reflexivity].
    + rewrite <- Hlen. apply lookup_lt_is_Some. eauto.
  - destruct (IH ltac:(lia)) as (Ip & If & Ir & Ipo & Ino & Il & Isp). clear IH.
    assert (Hjk : j0 + m < length ks) by lia.
    destruct (lookup_lt_is_Some_2 _ _ Hjk) as [k Hk].
    assert (Hd : drop j0 ks !! m = Some k) by now rewrite lookup_drop.
    subst st. rewrite (take_S_r _ _ _ Hd), fmap_app, session_run_app.
    cbn [fmap list_fmap].
    set (s' := Session.run P s ((λ k, Session.Key (press k t)) <$> take m (drop j0 ks))) in *.
    change (Session.run P s' [Session.Key (press k t)])
      with (Session.act P s' (Session.Key (press k t))).
    cbn [Session.act]. rewrite Ir.
    rewrite Forall_forall in Hks.
    assert (Hk1 : String.length k = 1) by (apply Hks; eapply list_elem_of_lookup_2; eauto).
    assert (Hh : handleKeyDown P s' (press k t) =
                 set_pos (j0 + m + 1)
                   (set_spans (<[j0 + m := Some (mark P (j0 + m) k)]> (spans s'))
                      (start_timer (press k t) s'))).
    { rewrite handleKeyDown_classify, (printable_classify _ (press_printable k t Hk1)).
      destruct (start_timer_frame (press k t) s') as (Ep & Es & Ef & Er & Epo & Eno).
      assert (Hspan : spans (start_timer (press k t) s') !! pos s' = Some (Some blank)).
      { rewrite Es, Ip, (Isp _ k Hk). destruct (decide (j0 ≤ j0 + m < j0 + m)); [lia | reflexivity]. }
      rewrite (writeChar_on_span P _ _ _ _ blank) by (congruence || exact Hspan).
      rewrite finishIfNeeded_not_due by lia. now rewrite Ip, Es. }
    destruct (start_timer_frame (press k t) s') as (Ep & Es & Ef & Er & Epo & Eno).
    assert (Hsp' : ∀ i k', ks !! i = Some k' →
              <[j0 + m := Some (mark P (j0 + m) k)]> (spans s') !! i =
              Some (Some (if decide (j0 ≤ i < j0 + S m) then mark P i k' else blank))).
    { intros i k' Hk'. destruct (decide (i = j0 + m)) as [->|Hne].
      - rewrite list_lookup_insert_eq by lia.
        destruct (decide (j0 ≤ j0 + m < j0 + S m)); [|lia]. congruence.
      - rewrite list_lookup_insert_ne by congruence. rewrite (Isp i k' Hk').
        destruct (decide (j0 ≤ i < j0 + m)), (decide (j0 ≤ i < j0 + S m));
          try lia; reflexivity. }
    assert (Hc : Session.commit P s' (handleKeyDown P s' (press k t)) =
                 handleKeyDown P s' (press k t)).
    { unfold Session.commit. rewrite Ir, Hh. cbn [report set_pos set_spans pos spans].
      rewrite Er, Ir, Ip.
      destruct (Nat.eqb_spec (j0 + m + 1) (j0 + m)) as [E|_]; [lia|].
      rewrite attach_id; [reflexivity | exact Hnl | now rewrite length_insert |].
      intros i Hi.
      destruct (lookup_lt_is_Some_2 ks i ltac:(lia)) as [k' Hk'].
      rewrite (Hsp' i k' Hk'). eauto. }
    rewrite Hc, Hh. cbn. rewrite Ef, Er, Epo, Eno, length_insert.
    repeat split; try assumption; try lia; try congruence.
Qed.

(** The key after the last character of the prompt. *)
Lemma session_finish (ks : list string) (s : State) (j0 : nat) (z : Input) :
  Forall (λ k, String.length k = 1) ks →
  length ks = length (chars P) → is_printable (ev z) = true →
  report s = None → finished s = false → pos s = length (chars P) →
  length (spans s) = length (chars P) →
  (∀ i k, ks !! i = Some k →
     spans s !! i = Some (Some (if decide (j0 ≤ i) then mark P i k else blank))) →
  let st := Session.act P s (Session.Key z) in
  finished st = true ∧
  ∃ a, rawText a = String.concat "" (drop j0 ks) ∧
       accuracy a = Monaco.calcAccuracy (drop j0 (chars P)) (drop j0 ks) ∧
       posted st = (if autoSubmit P then a :: posted s else posted s) ∧
       notified st = (if has_callback P then a :: notified s else notified s).
Proof.
  intros Hks Hlen Hz Hr Hf Hp Hl Hsp st.
  destruct (start_timer_frame z s) as (Ep & Es & Ef & Er & Epo & Eno).
  assert (Hh : handleKeyDown P s z =
               writeChar P (pos s) (now_finish z) (key (ev z)) (start_timer z s)).
  { now rewrite handleKeyDown_classify, (printable_classify _ Hz). }
  rewrite writeChar_overflow in Hh;
    [|congruence | lia | left; rewrite Es; apply lookup_ge_None_2; lia].
  destruct (marked_from j0 (chars P) ks (spans s) Hlen Hl) as [Ht Hc].
  { intros i c k Hc Hk. rewrite (Hsp i k Hk). unfold mark. now rewrite Hc. }
  assert (Hn : String.length (String.concat "" (drop j0 ks)) = length (drop j0 ks)).
  { apply concat_length_chars. now apply Forall_drop. }
  assert (Hacc : calcAccuracy (spans s) (String.length (typedStr (spans s))) =
                 Monaco.calcAccuracy (drop j0 (chars P)) (drop j0 ks)).
  { unfold calcAccuracy, Monaco.calcAccuracy. now rewrite Ht, Hn, Hc. }
  subst st. cbn [Session.act]. rewrite Hr. unfold Session.commit. rewrite Hh.
  cbn [report finished posted notified set_spans]. rewrite Es, Epo, Eno.
  split; [reflexivity|].
  eexists {| user := _; problemId := _; wpm := _; accuracy := _;
             rawText := _; durationMs := _ |}.
  cbn [rawText accuracy]. split; [exact Ht|]. split; [exact Hacc|].
  split; reflexivity.
Qed.

(** The first key after the mount finds no span stored: it moves the
    position on and the commit stores the spans, all clean. *)
Lemma first_key_after_mount (i : Input) :
  0 < length (chars P) → is_printable (ev i) = true →
  Session.act P Session.mount (Session.Key i) =
  {| pos := 1; spans := Session.attach P []; startTs := Some (now_start i);
     finished := false; report := None; posted := []; notified := [] |}.
Proof.
  intros Hlen Hi. cbn [Session.act report Session.mount].
  rewrite handleKeyDown_classify, (printable_classify _ Hi).
  cbn [pos Session.mount].
  rewrite writeChar_beyond; [|reflexivity | now left].
  rewrite finishIfNeeded_not_due by exact Hlen.
  reflexivity.
Qed.

(** X10. What is recorded of what was typed, on a prompt without newlines
    when as many single characters as the prompt has are typed, right or
    wrong, and then one more character key.  The session finishes with
    exactly one record.  In a session that starts with its spans stored
    (as after Try Again) the record's text is the characters typed, in
    order, and its accuracy what [calcAccuracy] of the array-based variants
    gives for them, so 100 when they are the prompt's characters.  In a
    session typed right after the mount the first key finds no span: the
    record lacks the first character, and its accuracy is that of the
    remaining keys against the remaining characters. *)
Theorem typed_text_recorded (ks : list string) (z : Input) (t : Z) :
  Forall (λ c, c ≠ NL) (chars P) →
  Forall (λ k, String.length k = 1) ks →
  length ks = length (chars P) →
  is_printable (ev z) = true →
  let keys := ((λ k, Session.Key (press k t)) <$> ks) ++ [Session.Key z] in
  (let st := Session.run P (init P) keys in
   finished st = true ∧
   ∃ a, rawText a = String.concat "" ks ∧
        accuracy a = Monaco.calcAccuracy (chars P) ks ∧
        (ks = chars P → accuracy a = JsNum.of_Z 100) ∧
        posted st = (if autoSubmit P then [a] else []) ∧
        notified st = (if has_callback P then [a] else [])) ∧
  (let st := Session.run P Session.mount keys in
   finished st = true ∧
   ∃ a, rawText a = String.concat "" (drop 1 ks) ∧
        accuracy a = Monaco.calcAccuracy (drop 1 (chars P)) (drop 1 ks) ∧
        (ks = chars P → accuracy a = JsNum.of_Z 100) ∧
        posted st = (if autoSubmit P then [a] else []) ∧
        notified st = (if has_callback P then [a] else [])).
Proof.
  intros Hnl Hks Hlen Hz keys.
  assert (Hall : ∀ l : list string, l = [] ∨ l ≠ []) by (intros [|? ?]; auto).
  assert (Hfull : ∀ l, Monaco.calcAccuracy l l = JsNum.of_Z 100).
  { intros l. destruct (Hall l) as [->|Hne]; [reflexivity|].
    now apply monaco_accuracy_all_correct. }
  assert (Hfin : ∀ s j0,
    report s = None → finished s = false → pos s = j0 → j0 ≤ length (chars P) →
    length (spans s) = length (chars P) → posted s = [] → notified s = [] →
    (∀ k, k < length (chars P) → spans s !! k = Some (Some blank)) →
    let st := Session.run P s
      (((λ k, Session.Key (press k t)) <$> drop j0 ks) ++ [Session.Key z]) in
    finished st = true ∧
    ∃ a, rawText a = String.concat "" (drop j0 ks) ∧
         accuracy a = Monaco.calcAccuracy (drop j0 (chars P)) (drop j0 ks) ∧
         (ks = chars P → accuracy a = JsNum.of_Z 100) ∧
         posted st = (if autoSubmit P then [a] else []) ∧
         notified st = (if has_callback P then [a] else [])).
  { intros s j0 Hr Hf Hp Hj Hl Hpo Hno Hb st.
    destruct (session_keys ks t s j0 (length (chars P) - j0) Hnl Hks Hlen Hr Hf Hp Hl Hb
                ltac:(lia)) as (Ip & If & Ir & Ipo & Ino & Il & Isp).
    rewrite take_ge in Ip, If, Ir, Ipo, Ino, Il, Isp by (rewrite length_drop; lia).
    subst st. rewrite session_run_app.
    set (s' := Session.run P s ((λ k, Session.Key (press k t)) <$> drop j0 ks)) in *.
    change (Session.run P s' [Session.Key z]) with (Session.act P s' (Session.Key z)).
    destruct (session_finish ks s' j0 z Hks Hlen Hz Ir If ltac:(lia) Il)
      as (Ff & a & Ha & Hacc & Fpo & Fno).
    { intros i k Hk. rewrite (Isp i k Hk).
      assert (i < length ks) by (apply lookup_lt_is_Some; eauto).
      destruct (decide (j0 ≤ i < j0 + (length (chars P) - j0))), (decide (j0 ≤ i));
        try lia; reflexivity. }
    split; [exact Ff|]. exists a. split; [exact Ha|]. split; [exact Hacc|].
    split; [intros ->; rewrite Hacc; apply Hfull|].
    rewrite Fpo, Fno, Ipo, Ino, Hpo, Hno. split; reflexivity. }
  split.
  - intros st. specialize (Hfin (init P) 0). rewrite !drop_0 in Hfin.
    apply Hfin; try reflexivity; try lia.
    + cbn. unfold render_spans. now rewrite length_fmap.
    + intros k Hk. destruct (init_lockstep P Hnl) as [_ L].
      destruct (L k Hk) as (sp & Hsp & _). cbn in Hsp |- *. rewrite Hsp.
      unfold render_spans in Hsp. rewrite list_lookup_fmap in Hsp.
      destruct (chars P !! k) as [c|]; [|discriminate]. cbn in Hsp.
      destruct (String.eqb c NL); [discriminate|]. now injection Hsp as <-.
  - intros st. destruct ks as [|k0 ks'].
    + assert (Hc : chars P = []) by (apply length_zero_iff_nil; cbn in Hlen; lia).
      specialize (Hfin Session.mount 0). rewrite !drop_0 in Hfin.
      cbn [drop]. rewrite Hc in *. apply Hfin; try reflexivity; try lia.
      intros k Hk. cbn in Hk. lia.
    + assert (Hpos : 0 < length (chars P)) by (cbn in Hlen; lia).
      assert (Hk0 : String.length k0 = 1) by now inversion Hks.
      assert (E : keys = [Session.Key (press k0 t)] ++
                  (((λ k, Session.Key (press k t)) <$> ks') ++ [Session.Key z]))
        by reflexivity.
      assert (E1 : Session.run P Session.mount [Session.Key (press k0 t)] =
                   {| pos := 1; spans := Session.attach P [];
                      startTs := Some (now_start (press k0 t));
                      finished := false; report := None;
                      posted := []; notified := [] |})
        by exact (first_key_after_mount _ Hpos (press_printable k0 t Hk0)).
      subst st. rewrite E, session_run_app, E1.
      specialize (Hfin {| pos := 1; spans := Session.attach P [];
                          startTs := Some (now_start (press k0 t));
                          finished := false; report := None;
                          posted := []; notified := [] |} 1).
      cbn [drop] in Hfin. rewrite drop_0 in Hfin. cbn [drop].
      apply Hfin; try reflexivity; try lia.
      * cbn. now apply attach_length.
      * intros k Hk. cbn. now rewrite attach_lookup.
Qed.

End SessionRecord.

Lemma typed_text_recorded_witness :
  let P := demo ["a"; "b"] in
  let ks := ["a"; "x"] in
  let keys := [Session.Key (press "a" 1000); Session.Key (press "x" 1000);
               Session.Key (press "z" 2000)] in
  Forall (λ c, c ≠ NL) (chars P) ∧ Forall (λ k, String.length k = 1) ks ∧
  rawText <$> posted (Session.run P (init P) keys) = ["ax"] ∧
  rawText <$> posted (Session.run P Session.mount keys) = ["x"] ∧
  accuracy <$> posted (Session.run P (init P) keys) = [JsNum.of_Z 50] ∧
  accuracy <$> posted (Session.run P Session.mount keys) = [JsNum.of_Z 0].
Proof.
  intros P ks keys.
  assert (Hnl : Forall (λ c, c ≠ NL) (chars P)) by (repeat constructor; discriminate).
  assert (Hks : Forall (λ k, String.length k = 1) ks) by (repeat constructor).
  split; [exact Hnl|]. split; [exact Hks|].
  destruct (typed_text_recorded P ks (press "z" 2000) 1000 Hnl Hks eq_refl eq_refl)
    as [(_ & a & Ha & Hacc & _ & Hpo & _) (_ & b & Hb & Hbcc & _ & Hqo & _)].
  split; [|split; [|split]].
  - transitivity [rawText a]; [exact (f_equal (fmap rawText) Hpo) | now rewrite Ha].
  - transitivity [rawText b]; [exact (f_equal (fmap rawText) Hqo) | now rewrite Hb].
  - transitivity [accuracy a]; [exact (f_equal (fmap accuracy) Hpo) | now rewrite Hacc].
  - transitivity [accuracy b]; [exact (f_equal (fmap accuracy) Hqo) | now rewrite Hbcc].
Defined.

(** ** The properties at concrete inputs *)





Lemma tab_equals_space_witness :
  let P := demo [" "; "b"] in
  lockstep P (init P) ∧
  pos (handleKeyDown P (init P) (press "Tab" 1000)) = 1.
Proof.
  assert (H : lockstep (demo [" "; "b"]) (init (demo [" "; "b"])))
    by (apply init_lockstep; repeat constructor; discriminate).
  split; [exact H|].
  exact (eq_trans (f_equal pos (tab_equals_space (demo [" "; "b"]) (init (demo [" "; "b"])) 1000 H))
                  eq_refl).
Defined.


Lemma monaco_roundtrip_witness :
  let P := demo ["a"; NL; "b"] in
  chars P ≠ [] ∧
  Monaco.finished (Monaco.run P Monaco.init (type_prompt (chars P) 1000)) = true.
Proof.
  assert (H : Forall (λ c, String.length c = 1 ∨ c = NL) (chars (demo ["a"; NL; "b"])))
    by (repeat constructor; left; reflexivity).
  split; [discriminate|].
  refine (proj1 (monaco_roundtrip (demo ["a"; NL; "b"]) 1000 _ H)). discriminate.
Defined.

Lemma monaco_tab_four_witness :
  let P := demo [" "; " "; " "; " "; "x"] in
  key (ev (press "Tab" 1000)) = "Tab" ∧
  Monaco.typed (Monaco.step P Monaco.init (press "Tab" 1000)) = [SP; SP; SP; SP].
Proof.
  split; [reflexivity|].
  exact (proj1 (monaco_tab_four (demo [" "; " "; " "; " "; "x"]) Monaco.init
                  (press "Tab" 1000) eq_refl)).
Defined.

Lemma array_completion_at_most_once_witness :
  let P := demo ["a"] in
  let evs := [press "a" 1000; press "b" 2000; press "Backspace" 3000; press "c" 4000] in
  Forall (λ i, key (ev i) ≠ "Escape") evs ∧
  length (Monaco.posted (Monaco.run P Monaco.init evs)) ≤ 1.
Proof.
  assert (H : Forall (λ i, key (ev i) ≠ "Escape")
                [press "a" 1000; press "b" 2000; press "Backspace" 3000; press "c" 4000])
    by (repeat constructor; discriminate).
  split; [exact H|].
  exact (proj1 (proj1 (array_completion_at_most_once (demo ["a"]) Monaco.init _ H))).
Defined.

Lemma array_backspace_undoes_keystroke_witness :
  let P := demo ["a"; "b"] in
  is_printable (ev (press "x" 1000)) = true ∧
  Monaco.typed (Canvas.step P (Canvas.step P Monaco.init (press "x" 1000))
                  (press "Backspace" 2000)) = [].
Proof.
  split; [reflexivity|].
  exact (proj2 (array_backspace_undoes_keystroke (demo ["a"; "b"]) Monaco.init
                  (press "x" 1000) (press "Backspace" 2000)
                  (or_introl eq_refl) eq_refl)).
Defined.

Lemma array_accuracy_percentage_witness :
  (Z.of_nat (length ["a"; "x"; "y"]) <= 2 ^ 53)%Z ∧
  ∃ m : Z, (0 <= m <= 100)%Z ∧
           Monaco.calcAccuracy ["a"; "b"] ["a"; "x"; "y"] = JsNum.of_Z m.
Proof.
  split; [cbn; lia|].
  apply (array_accuracy_percentage ["a"; "b"] ["a"; "x"; "y"]). cbn; lia.
Defined.

Lemma positions_increase_witness :
  let text := String "a" (String "010" (String "b" EmptyString)) in
  1 < 3 ∧ 3 ≤ String.length text ∧
  Editor.precedes (Editor.indexToPosition text 1) (Editor.indexToPosition text 3).
Proof.
  split; [lia|]. split; [cbn; lia|].
  refine (proj1 (positions_increase _ 1 3 _ _)); cbn; lia.
Defined.


Lemma new_record_leads_witness :
  let a := {| Server.id := "1"; Server.user := "ann"; Server.problemId := "p1";
              Server.wpm := 40; Server.accuracy := 90; Server.rawText := "";
              Server.durationMs := 1000; Server.createdAt := 1 |} in
  let b := {| Api.b_user := None; Api.b_problemId := Some "p1"; Api.b_wpm := 55;
              Api.b_accuracy := 80; Api.b_rawText := None; Api.b_durationMs := 900 |} in
  Api.b_problemId b = Some "p1" ∧ (Api.b_wpm b <= 300)%Z ∧
  ∃ r, Api.post_attempt [a] (Some b) "2" 7 = (Api.Json r, [a; r]) ∧
       Server.id r = "2" ∧ Server.createdAt r = 7%Z ∧
       head (Server.leaderboard [a; r] (Some "p1")) = Some r.
Proof.
  intros a b. split; [reflexivity|]. split; [cbn; lia|].
  refine (new_record_leads [a] b "p1" "2" 7 eq_refl _ _ _).
  - discriminate.
  - cbn; lia.
  - repeat constructor; cbn; lia.
Defined.
